(** * TrafficFlow: the in-memory FCD point store of [vis/backend/data.py]

    A shallow embedding of [TrafficData]: loading and normalising the
    semicolon-separated FCD table, the time / bounding-box / vehicle-id
    filters, the per-vehicle bucket sampler, the row cap, and the two
    facades [trajectory] and [query].

    Modelling conventions.
    - A polars [DataFrame] is the list of its rows, in row order.  Only the
      four columns the module reads are kept; every column is nullable, as in
      polars, so a cell is an [option].
    - [Float64] cells and float parameters are the rationals they denote
      ([Q]); comparisons of floats are exact, so the filters compare in [Q].
      The one place where the code rounds, the quotient of a time by the
      bucket width, is not computed in [Q]: it is an operation of the
      [Float64] class below, which may also fail where the cast to [Int64]
      does.  Infinities and NaN cells are outside the model (the loader
      reads the texts NaN and nan as null).
    - Python [int] is [Z]; [str] is [string], compared byte by byte.
    - A Python exception is the [Raise] branch of [result]. *)

From Stdlib Require Import String Ascii List ZArith QArith Qround Bool Lia.
From Stdlib Require Import Permutation Sorted.
Import ListNotations.
Local Open Scope list_scope.

(** ** Exceptions *)

Inductive exn : Type :=
| ValueError (msg : string)
| TypeError (msg : string)
| InvalidOperationError (msg : string).

Inductive result (A : Type) : Type :=
| Ok (a : A)
| Raise (e : exn).

Arguments Ok {A} a.
Arguments Raise {A} e.

Definition bind {A B : Type} (m : result A) (k : A -> result B) : result B :=
  match m with
  | Ok a => k a
  | Raise e => Raise e
  end.

Notation "x <- m ;; k" := (bind m (fun x => k))
  (at level 61, m at next level, right associativity).

(** A list comprehension whose body may raise: elements are converted from
    left to right and the first exception aborts the whole comprehension. *)
Fixpoint mapM {A B : Type} (f : A -> result B) (l : list A) : result (list B) :=
  match l with
  | [] => Ok []
  | a :: l' => b <- f a ;; bs <- mapM f l' ;; Ok (b :: bs)
  end.

(** ** Rows and frames *)

Record row : Type := Row {
  timestep_time : option Q;
  vehicle_id : option string;
  vehicle_x : option Q;
  vehicle_y : option Q
}.

Definition DataFrame : Type := list row.

(** [df.height] *)
Definition height (q : DataFrame) : Z := Z.of_nat (length q).

(** [q.head(n)] for a non-negative [n]. *)
Definition head (n : Z) (q : DataFrame) : DataFrame := firstn (Z.to_nat n) q.

Definition is_not_null {A : Type} (c : option A) : bool :=
  match c with Some _ => true | None => false end.

(** [pl.col("vehicle_x").is_not_null() & pl.col("vehicle_y").is_not_null()] *)
Definition has_lon_lat (r : row) : bool :=
  is_not_null (vehicle_x r) && is_not_null (vehicle_y r).

(** A comparison of a nullable cell with a literal is null on a null cell,
    and [filter] keeps a row only where the predicate is true. *)
Definition cell_ge (c : option Q) (lo : Q) : bool :=
  match c with Some v => Qle_bool lo v | None => false end.

Definition cell_le (c : option Q) (hi : Q) : bool :=
  match c with Some v => Qle_bool v hi | None => false end.

Definition option_eq_dec {A : Type} (d : forall x y : A, {x = y} + {x <> y})
  : forall x y : option A, {x = y} + {x <> y}.
Proof. decide equality. Defined.

Definition id_eq_dec : forall a b : option string, {a = b} + {a <> b} :=
  option_eq_dec string_dec.

(** [Series.unique()]: the distinct values, null included; polars leaves
    their order open, and every use below sorts or counts them. *)
Definition unique (ids : list (option string)) : list (option string) :=
  nodup id_eq_dec ids.

(** [Series.n_unique()] *)
Definition n_unique (ids : list (option string)) : Z :=
  Z.of_nat (length (unique ids)).

(** [float(x)] on a cell: [float(None)] raises [TypeError]. *)
Definition float (c : option Q) : result Q :=
  match c with
  | Some v => Ok v
  | None => Raise (TypeError "float() argument must be a string or a real number, not 'NoneType'")
  end.

(** [str(x)] on a cell. *)
Definition str (c : option string) : string :=
  match c with
  | Some s => s
  | None => "None"%string
  end.

(** Python's [sorted] on strings: insertion by the byte-wise order. *)
Fixpoint insert_str (s : string) (l : list string) : list string :=
  match l with
  | [] => [s]
  | x :: l' => if String.leb s x then s :: l else x :: insert_str s l'
  end.

Definition sorted (l : list string) : list string :=
  fold_right insert_str [] l.

(** ** Ordering of rows under [sort(["vehicle_id", "timestep_time"])]

    Ascending on both columns, nulls first (the defaults of
    [DataFrame.sort]). *)

Definition cell_compare {A : Type} (cmp : A -> A -> comparison)
  (a b : option A) : comparison :=
  match a, b with
  | None, None => Eq
  | None, Some _ => Lt
  | Some _, None => Gt
  | Some x, Some y => cmp x y
  end.

Definition row_compare (r1 r2 : row) : comparison :=
  match cell_compare String.compare (vehicle_id r1) (vehicle_id r2) with
  | Eq => cell_compare Qcompare (timestep_time r1) (timestep_time r2)
  | c => c
  end.

Definition row_leb (r1 r2 : row) : bool :=
  match row_compare r1 r2 with Gt => false | _ => true end.

Definition row_le (r1 r2 : row) : Prop := row_leb r1 r2 = true.

(** Two rows tie when the sort key does not separate them. *)
Definition same_sort_key (r1 r2 : row) : bool :=
  match row_compare r1 r2 with Eq => true | _ => false end.

(** [DataFrame.sort(by)] as the code calls it, without [maintain_order]:
    polars promises a rearrangement of the rows that is ascending in the key,
    and leaves the order of tied rows to the implementation. *)
Class DataFrameSort : Type := {
  df_sort : DataFrame -> DataFrame;
  df_sort_perm : forall q, Permutation q (df_sort q);
  df_sort_sorted : forall q, StronglySorted row_le (df_sort q)
}.

(** Relative order of tied rows is kept from [input] to [output]. *)
Definition keeps_tie_order (input output : DataFrame) : Prop :=
  forall r, filter (same_sort_key r) output = filter (same_sort_key r) input.

(** ** Loading *)

(** What [pl.read_csv] hands back: the header and the parsed rows. *)
Record CsvTable : Type := {
  columns : list string;
  records : list row
}.

Definition has_column (name : string) (t : CsvTable) : bool :=
  if in_dec string_dec name (columns t) then true else false.

Section Loader.
Context {polars_sort : DataFrameSort}.

Definition _load (t : CsvTable) : result DataFrame :=
  if negb (has_column "timestep_time" t) || negb (has_column "vehicle_id" t)
  then Raise (ValueError "CSV missing required columns: timestep_time, vehicle_id")
  else if negb (has_column "vehicle_x" t) || negb (has_column "vehicle_y" t)
  then Raise (ValueError "CSV missing required columns: vehicle_x, vehicle_y")
  else Ok (df_sort (filter has_lon_lat (records t))).
End Loader.

(** [Series.min()] and [Series.max()] skip nulls and are null on a column
    with no value. *)
Definition Qmin' (a b : Q) : Q := if Qle_bool a b then a else b.
Definition Qmax' (a b : Q) : Q := if Qle_bool a b then b else a.

Fixpoint series_fold (f : Q -> Q -> Q) (col : list (option Q)) : option Q :=
  match col with
  | [] => None
  | None :: col' => series_fold f col'
  | Some v :: col' =>
      match series_fold f col' with
      | Some m => Some (f v m)
      | None => Some v
      end
  end.

Definition series_min : list (option Q) -> option Q := series_fold Qmin'.
Definition series_max : list (option Q) -> option Q := series_fold Qmax'.

Record TrafficData : Type := {
  csv_path : string;
  df : DataFrame;
  min_time : Q;
  max_time : Q;
  row_count : Z;
  vehicle_count : Z
}.

Section Init.
Context {polars_sort : DataFrameSort}.

(** [TrafficData(csv_path)], with the file's parsed content as argument. *)
Definition __init__ (path : string) (t : CsvTable) : result TrafficData :=
  d <- _load t ;;
  lo <- float (series_min (map timestep_time d)) ;;
  hi <- float (series_max (map timestep_time d)) ;;
  Ok {| csv_path := path;
        df := d;
        min_time := lo;
        max_time := hi;
        row_count := height d;
        vehicle_count := n_unique (map vehicle_id d) |}.
End Init.

(** ** Filters *)

Definition in_bbox (west south east north : Q) (r : row) : bool :=
  is_not_null (vehicle_x r)
  && is_not_null (vehicle_y r)
  && cell_ge (vehicle_x r) west
  && cell_le (vehicle_x r) east
  && cell_ge (vehicle_y r) south
  && cell_le (vehicle_y r) north.

(** [west, south, east, north = list(bbox)] raises [ValueError] unless the
    list has exactly four elements. *)
Definition _apply_bbox (q : DataFrame) (bbox : option (list Q)) : result DataFrame :=
  match bbox with
  | None => Ok q
  | Some [west; south; east; north] => Ok (filter (in_bbox west south east north) q)
  | Some (_ :: _ :: _ :: _ :: _ :: _) => Raise (ValueError "too many values to unpack")
  | Some _ => Raise (ValueError "not enough values to unpack")
  end.

Definition in_time (time_start time_end : Q) (r : row) : bool :=
  cell_ge (timestep_time r) time_start && cell_le (timestep_time r) time_end.

Definition _apply_time (q : DataFrame) (time_start time_end : Q) : DataFrame :=
  filter (in_time time_start time_end) q.

(** [pl.col("vehicle_id").is_in(vehicle_ids)]: never true on a null cell. *)
Definition is_in (vehicle_ids : list string) (r : row) : bool :=
  match vehicle_id r with
  | Some s => if in_dec string_dec s vehicle_ids then true else false
  | None => false
  end.

Definition _apply_ids (q : DataFrame) (vehicle_ids : option (list string)) : DataFrame :=
  match vehicle_ids with
  | None => q
  | Some [] => q
  | Some ids => filter (is_in ids) q
  end.

(** ** Sampling *)

Definition fits_int64 (z : Z) : bool :=
  ((- 2 ^ 63 <=? z) && (z <? 2 ^ 63))%Z.

(** The arithmetic of [(t / sample_every).floor().cast(pl.Int64)] on one
    non-null cell: the float64 quotient, rounded as the hardware rounds it,
    its floor, and the strict cast, which fails ([None]) when the floor is
    not an [Int64].  The quotient is not the exact one in general, so it is
    left to the implementation; what is fixed is that dividing by 1.0 is
    exact, so that the cast then succeeds exactly when the floor of the
    time itself is an [Int64]. *)
Class Float64 : Type := {
  floor_div_cast : Q -> Q -> option Z;
  floor_div_cast_one :
    forall t, floor_div_cast t 1 =
              if fits_int64 (Qfloor t) then Some (Qfloor t) else None
}.

Section Sampling.
Context {float64 : Float64}.

(** The cell of the [_bucket] column, null on a null time.  Where the cast
    fails no column is built; [_sample] rules that out before it groups. *)
Definition bucket (sample_every : Q) (r : row) : option Z :=
  match timestep_time r with
  | Some t => floor_div_cast t sample_every
  | None => None
  end.

(** The cast fails on this row. *)
Definition cast_fails (sample_every : Q) (r : row) : bool :=
  match timestep_time r with
  | Some t => match floor_div_cast t sample_every with
              | Some _ => false
              | None => true
              end
  | None => false
  end.

Definition group_key : Type := (option string * option Z)%type.

Definition group_key_eq_dec : forall a b : group_key, {a = b} + {a <> b}.
Proof.
  decide equality.
  - apply (option_eq_dec Z.eq_dec).
  - apply id_eq_dec.
Defined.

Definition key_of (sample_every : Q) (r : row) : group_key :=
  (vehicle_id r, bucket sample_every r).

Definition seen_key (k : group_key) (seen : list group_key) : bool :=
  if in_dec group_key_eq_dec k seen then true else false.

(** [group_by(keys, maintain_order=True).agg(pl.all().first())]: one row per
    key, the first of its group, groups in order of first appearance. *)
Fixpoint group_first (key : row -> group_key) (seen : list group_key)
  (q : DataFrame) : DataFrame :=
  match q with
  | [] => []
  | r :: q' =>
      if seen_key (key r) seen
      then group_first key seen q'
      else r :: group_first key (key r :: seen) q'
  end.

(** [with_columns] raises when any cell fails the cast; otherwise the rows
    are grouped on (vehicle_id, _bucket) and the column is dropped. *)
Definition _sample (q : DataFrame) (sample_every : Q) : result DataFrame :=
  if Qle_bool sample_every 0 then Ok q
  else if existsb (cast_fails sample_every) q
  then Raise (InvalidOperationError "conversion from `f64` to `i64` failed")
  else Ok (group_first (key_of sample_every) [] q).
End Sampling.

(** ** Row cap

    The block shared by [trajectory] and [query]:
    [if max_points and max_points > 0 and q.height > max_points]. *)
Definition over_limit (max_points : Z) (q : DataFrame) : bool :=
  negb (max_points =? 0)%Z && (0 <? max_points)%Z && (max_points <? height q)%Z.

Definition cap (max_points : Z) (q : DataFrame) : DataFrame * bool :=
  if over_limit max_points q then (head max_points q, true) else (q, false).

(** ** trajectory *)

Record TrackPoint : Type := {
  tp_t : Q;
  tp_lon : Q;
  tp_lat : Q
}.

Record Trajectory : Type := {
  tr_vehicleId : string;
  tr_truncated : bool;
  tr_pointCount : Z;
  tr_coordinates : list (Q * Q);
  tr_points : list TrackPoint
}.

Definition coord_of (r : row) : result (Q * Q) :=
  x <- float (vehicle_x r) ;; y <- float (vehicle_y r) ;; Ok (x, y).

Definition track_point_of (r : row) : result TrackPoint :=
  t <- float (timestep_time r) ;;
  x <- float (vehicle_x r) ;;
  y <- float (vehicle_y r) ;;
  Ok {| tp_t := t; tp_lon := x; tp_lat := y |}.

(** [pl.col("vehicle_id") == vehicle_id] *)
Definition is_vehicle (vid : string) (r : row) : bool :=
  match vehicle_id r with
  | Some s => if string_dec s vid then true else false
  | None => false
  end.

Definition trajectory (d : DataFrame) (vid : string)
  (time_start time_end : option Q) (max_pts : Z) : result Trajectory :=
  let q := filter (is_vehicle vid) d in
  let q := filter has_lon_lat q in
  let q := match time_start, time_end with
           | Some s, Some e => _apply_time q s e
           | _, _ => q
           end in
  let (q, trunc) := cap max_pts q in
  coords <- mapM coord_of q ;;
  points <- mapM track_point_of q ;;
  Ok {| tr_vehicleId := vid;
        tr_truncated := trunc;
        tr_pointCount := Z.of_nat (length coords);
        tr_coordinates := coords;
        tr_points := points |}.

(** ** query *)

Record QueryStats : Type := {
  rows : Z;
  vehicles : Z;
  truncated : bool;
  sample_every : Q;
  max_points : Z
}.

Record Point : Type := {
  p_t : Q;
  p_vehicleId : string;
  p_lon : Q;
  p_lat : Q
}.

Definition point_of (r : row) : result Point :=
  t <- float (timestep_time r) ;;
  x <- float (vehicle_x r) ;;
  y <- float (vehicle_y r) ;;
  Ok {| p_t := t; p_vehicleId := str (vehicle_id r); p_lon := x; p_lat := y |}.

(** [vehicle_ids_hit], computed on the view handed to the cap. *)
Definition vehicle_ids_hit (q : DataFrame) : list string :=
  let ids := if (0 <? height q)%Z then unique (map vehicle_id q) else [] in
  sorted (map str ids).

Section Query.
Context {float64 : Float64}.

Definition query (d : DataFrame) (time_start time_end : Q)
  (bbox : option (list Q)) (vehicle_ids : option (list string))
  (max_pts : Z) (every : Q)
  : result (list Point * list string * QueryStats) :=
  let q := _apply_time d time_start time_end in
  q <- _apply_bbox q bbox ;;
  let q := _apply_ids q vehicle_ids in
  let q := filter has_lon_lat q in
  q <- _sample q every ;;
  let hit := vehicle_ids_hit q in
  let (q, trunc) := cap max_pts q in
  points <- mapM point_of q ;;
  Ok (points, hit,
      {| rows := Z.of_nat (length points);
         vehicles := Z.of_nat (length hit);
         truncated := trunc;
         sample_every := every;
         max_points := max_pts |}).
End Query.

(** ** The views handed to the cap

    Names for the frame each facade has built when it reaches the cap; the
    facades above are shown to factor through them. *)

Definition trajectory_view (d : DataFrame) (vid : string)
  (time_start time_end : option Q) : DataFrame :=
  let q := filter has_lon_lat (filter (is_vehicle vid) d) in
  match time_start, time_end with
  | Some s, Some e => _apply_time q s e
  | _, _ => q
  end.

Definition query_view {float64 : Float64} (d : DataFrame)
  (time_start time_end : Q) (bbox : option (list Q))
  (vehicle_ids : option (list string)) (every : Q) : result DataFrame :=
  q <- _apply_bbox (_apply_time d time_start time_end) bbox ;;
  _sample (filter has_lon_lat (_apply_ids q vehicle_ids)) every.

(** The header passes both column checks of [_load]. *)
Definition required_columns (t : CsvTable) : bool :=
  has_column "timestep_time" t && has_column "vehicle_id" t
  && has_column "vehicle_x" t && has_column "vehicle_y" t.

(** The box has the four components the unpacking needs (or is absent). *)
Definition bbox_arity_ok (bbox : option (list Q)) : bool :=
  match bbox with
  | None => true
  | Some l => Nat.eqb (length l) 4
  end.

(** One list is the other with some elements removed, order kept. *)
Inductive subseq {A : Type} : list A -> list A -> Prop :=
| subseq_nil : subseq [] []
| subseq_keep x l1 l2 : subseq l1 l2 -> subseq (x :: l1) (x :: l2)
| subseq_drop x l1 l2 : subseq l1 l2 -> subseq l1 (x :: l2).

(** ** Two implementations of the sort contract

    Insertion from the right keeps tied rows in input order (what
    [maintain_order=True] would give); sorting the reversed frame is as good
    a sort by the contract and puts tied rows in the opposite order. *)

Fixpoint insert_row (r : row) (q : DataFrame) : DataFrame :=
  match q with
  | [] => [r]
  | x :: q' => if row_leb r x then r :: q else x :: insert_row r q'
  end.

Definition insertion_sort (q : DataFrame) : DataFrame :=
  fold_right insert_row [] q.

(** ** Exact arithmetic

    The quotient taken exactly.  It is the float64 quotient wherever that
    one is exact, as it is for every division by 1.0. *)
Definition exact_floor_div (t w : Q) : option Z :=
  let z := Qfloor (t / w) in
  if fits_int64 z then Some z else None.

(** ** Scenario tables *)

Definition fcd (t : Q) (vid : string) (lon lat : Q) : row :=
  {| timestep_time := Some t; vehicle_id := Some vid;
     vehicle_x := Some lon; vehicle_y := Some lat |}.

(** One vehicle sampled every half second, longitude increasing. *)
Definition scenario_a : DataFrame :=
  [ fcd 0 "v1" 10 50; fcd (1 # 2) "v1" 11 50;
    fcd 1 "v1" 12 50; fcd (3 # 2) "v1" 13 50 ].

(** Two vehicles with one row each. *)
Definition scenario_b : DataFrame :=
  [ fcd 0 "v1" 10 50; fcd 0 "v2" 20 60 ].

(** A parsed file with the four required columns. *)
Definition fcd_columns : list string :=
  [ "timestep_time"%string; "vehicle_id"%string;
    "vehicle_x"%string; "vehicle_y"%string ].


(** A file with a row whose time cell is empty. *)
Definition null_time_table : CsvTable :=
  {| columns := fcd_columns;
     records := [ fcd 0 "v1" 10 50;
                  {| timestep_time := None; vehicle_id := Some "v1"%string;
                     vehicle_x := Some 11; vehicle_y := Some 50 |} ] |}.

(** A file whose rows come unsorted, one of them without a position. *)
Definition unsorted_table : CsvTable :=
  {| columns := fcd_columns;
     records := [ fcd 1 "v2" 20 60;
                  {| timestep_time := Some 0; vehicle_id := None;
                     vehicle_x := None; vehicle_y := None |};
                  fcd (3 # 2) "v1" 13 50;
                  fcd 0 "v1" 10 50 ] |}.

(** A file in which no row has a position. *)
Definition empty_timesteps : CsvTable :=
  {| columns := fcd_columns;
     records := [ {| timestep_time := Some 0; vehicle_id := None;
                     vehicle_x := None; vehicle_y := None |};
                  {| timestep_time := Some 1; vehicle_id := None;
                     vehicle_x := None; vehicle_y := None |} ] |}.

(** A file without the [vehicle_y] column. *)
Definition no_latitude : CsvTable :=
  {| columns := [ "timestep_time"%string; "vehicle_id"%string;
                  "vehicle_x"%string ];
     records := [] |}.

(** The store constructed from [unsorted_table] by a stable sort. *)
Definition unsorted_store : TrafficData :=
  {| csv_path := "fcd_geo.csv";
     df := [ fcd 0 "v1" 10 50; fcd (3 # 2) "v1" 13 50; fcd 1 "v2" 20 60 ];
     min_time := 0;
     max_time := 3 # 2;
     row_count := 3;
     vehicle_count := 2 |}.

(** ** vehicles and meta *)

(** [TrafficData.vehicles] (the name [vehicles] is the field of
    [QueryStats]): the slice [ids[: max(0, int(limit))]] of the sorted
    distinct ids of the rows in the time range and the box. *)
Definition TrafficData_vehicles (d : DataFrame) (time_start time_end : Q)
  (bbox : option (list Q)) (limit : Z) : result (list string) :=
  let q := _apply_time d time_start time_end in
  q <- _apply_bbox q bbox ;;
  let ids := unique (map vehicle_id q) in
  let ids := sorted (map str ids) in
  Ok (firstn (Z.to_nat (Z.max 0 limit)) ids).

Record Meta : Type := {
  m_csvPath : string;
  m_minTime : Q;
  m_maxTime : Q;
  m_rowCount : Z;
  m_vehicleCount : Z
}.

Definition meta (td : TrafficData) : Meta :=
  {| m_csvPath := csv_path td;
     m_minTime := min_time td;
     m_maxTime := max_time td;
     m_rowCount := row_count td;
     m_vehicleCount := vehicle_count td |}.

(** ** The HTTP layer of [vis/backend/app.py]

    The handlers as functions of the cached store [app.state.traffic] and of
    the file the path points to at the time of the call.  Python's
    [str.strip] and [float] on text are taken as given. *)

(** [s.split(",")] *)
Fixpoint split_comma (s : string) : list string :=
  match s with
  | EmptyString => [EmptyString]
  | String c s' =>
      if Ascii.eqb c ","%char then EmptyString :: split_comma s'
      else match split_comma s' with
           | p :: ps => String c p :: ps
           | [] => [String c EmptyString]
           end
  end.

(** [app.state.traffic], absent or [None] before the first load. *)
Definition AppState : Type := option TrafficData.

Section App.
Context {polars_sort : DataFrameSort} {float64 : Float64}.
Variable strip : string -> string.
Variable float_of_str : string -> result Q.
Variable app_csv_path : string.

Definition _parse_bbox (bbox : option string) : result (option (list Q)) :=
  match bbox with
  | None => Ok None
  | Some EmptyString => Ok None
  | Some s =>
      let parts := map strip (split_comma s) in
      if negb (Nat.eqb (length parts) 4)
      then Raise (ValueError "bbox must be west,south,east,north")
      else
        west <- float_of_str (nth 0 parts EmptyString) ;;
        south <- float_of_str (nth 1 parts EmptyString) ;;
        east <- float_of_str (nth 2 parts EmptyString) ;;
        north <- float_of_str (nth 3 parts EmptyString) ;;
        Ok (Some [west; south; east; north])
  end.

(** Lazy load, one call run from its first line to its last with no other
    call in between: the store is built when the call finds none, and the
    assignment does not happen when the constructor raises.  The calls that
    overlap are modelled below, step by step. *)
Definition _get_traffic (file : CsvTable) (st : AppState)
  : result TrafficData * AppState :=
  match st with
  | Some traffic => (Ok traffic, st)
  | None =>
      match __init__ app_csv_path file with
      | Ok traffic => (Ok traffic, Some traffic)
      | Raise e => (Raise e, None)
      end
  end.

(** *** Overlapping calls of [_get_traffic]

    The handlers are plain [def]s, which the server runs on worker threads,
    and [_get_traffic] takes no lock.  A call in progress stands at one of
    the points below; from one point to the next it reads [app.state] once,
    writes it once, or runs the constructor. *)
Inductive call : Type :=
| Start                             (* before [getattr(app.state, ...)] *)
| Constructing                      (* found none; in [TrafficData(...)] *)
| Assigning (traffic : TrafficData) (* before [app.state.traffic = ...] *)
| Rereading                         (* before [traffic = app.state.traffic] *)
| Returned (traffic : AppState)     (* [return traffic] *)
| Raised (e : exn).                 (* the constructor raised *)

(** One step of a call: the point it moves to, the store it leaves, and
    the number of constructor runs the step made. *)
Definition call_step (file : CsvTable) (st : AppState) (c : call)
  : call * AppState * nat :=
  match c with
  | Start =>
      (match st with Some _ => Returned st | None => Constructing end,
       st, 0%nat)
  | Constructing =>
      (match __init__ app_csv_path file with
       | Ok traffic => Assigning traffic
       | Raise e => Raised e
       end, st, 1%nat)
  | Assigning traffic => (Rereading, Some traffic, 0%nat)
  | Rereading => (Returned st, st, 0%nat)
  | Returned _ | Raised _ => (c, st, 0%nat)
  end.

Fixpoint set_call (i : nat) (c : call) (l : list call) : list call :=
  match l, i with
  | [], _ => []
  | _ :: l', O => c :: l'
  | x :: l', Datatypes.S i' => x :: set_call i' c l'
  end.

(** The server: the shared [app.state.traffic], the constructor runs so
    far, and the calls in progress or finished. *)
Record Server : Type := {
  app_state : AppState;
  loads : nat;
  calls : list call
}.

(** The scheduler lets call [i] take its next step. *)
Definition server_step (file : CsvTable) (i : nat) (s : Server) : Server :=
  match nth_error (calls s) i with
  | Some c =>
      let '(c', st', n) := call_step file (app_state s) c in
      {| app_state := st'; loads := (loads s + n)%nat;
         calls := set_call i c' (calls s) |}
  | None => s
  end.

Fixpoint run (file : CsvTable) (schedule : list nat) (s : Server) : Server :=
  match schedule with
  | [] => s
  | i :: schedule' => run file schedule' (server_step file i s)
  end.

(** [n] calls arrive at a server whose store is [st]. *)
Definition arrivals (st : AppState) (n : nat) : Server :=
  {| app_state := st; loads := 0%nat; calls := repeat Start n |}.

(** What a finished call gave its handler. *)
Definition call_result (c : call) : option (result TrafficData) :=
  match c with
  | Returned (Some traffic) => Some (Ok traffic)
  | Raised e => Some (Raise e)
  | _ => None
  end.

(** Calls that have not run the constructor yet and still may. *)
Definition pending (c : call) : nat :=
  match c with
  | Start | Constructing => 1%nat
  | _ => 0%nat
  end.

(** [GET /api/health]: ok, preloaded, csvPath, meta. *)
Definition api_health (st : AppState) : bool * bool * string * option Meta :=
  (true, is_not_null st, app_csv_path, option_map meta st).

(** [GET /api/vehicles] *)
Definition api_vehicles (file : CsvTable) (st : AppState)
  (timeStart timeEnd : Q) (bbox : option string) (limit : Z)
  : result (list string) * AppState :=
  let (got, st') := _get_traffic file st in
  (traffic <- got ;;
   bbox_list <- _parse_bbox bbox ;;
   TrafficData_vehicles (df traffic) timeStart timeEnd bbox_list limit,
   st').

(** [GET /api/trajectory/{vehicle_id}]: [max_points] keeps its default. *)
Definition api_trajectory (file : CsvTable) (st : AppState)
  (vid : string) (timeStart timeEnd : option Q)
  : result Trajectory * AppState :=
  let (got, st') := _get_traffic file st in
  (traffic <- got ;; trajectory (df traffic) vid timeStart timeEnd 0, st').

(** [POST /api/query] *)
Definition api_query (file : CsvTable) (st : AppState)
  (timeStart timeEnd : Q) (bbox : option (list Q))
  (vehicleIds : option (list string)) (maxPoints : Z) (sampleEvery : Q)
  : result (list Point * list string * QueryStats) * AppState :=
  let (got, st') := _get_traffic file st in
  (traffic <- got ;;
   query (df traffic) timeStart timeEnd bbox vehicleIds maxPoints sampleEvery,
   st').
End App.

(** A reader of unsigned decimal numerals, to run the handlers on text. *)
Fixpoint digits (s : string) (acc : Z) : option Z :=
  match s with
  | EmptyString => Some acc
  | String c s' =>
      let n := Z.of_N (N_of_ascii c) in
      if ((48 <=? n) && (n <=? 57))%Z then digits s' (10 * acc + (n - 48))%Z
      else None
  end.

Definition decimal (s : string) : result Q :=
  match s with
  | EmptyString => Raise (ValueError "could not convert string to float")
  | _ => match digits s 0 with
         | Some z => Ok (inject_Z z)
         | None => Raise (ValueError "could not convert string to float")
         end
  end.

(** ** Route patching of [data/generate_no_overtake_fcd.py]

    The routes file is the element tree [ET.parse] reads from it: tags,
    attributes in document order, children.  Writing a tree and parsing it
    again gives the tree back. *)
Module Routes.

#[warnings="-register-all"]
Inductive element : Type :=
| Element (tag : string) (attrib : list (string * string))
    (children : list element).

Definition tag_of (e : element) : string :=
  match e with Element t _ _ => t end.

Definition attrib_of (e : element) : list (string * string) :=
  match e with Element _ a _ => a end.

Definition children_of (e : element) : list element :=
  match e with Element _ _ c => c end.

(** [attrib.get(k)] *)
Fixpoint lookup (k : string) (a : list (string * string)) : option string :=
  match a with
  | [] => None
  | (k', v) :: a' => if String.eqb k' k then Some v else lookup k a'
  end.

(** [attrib[k] = v]: a present key keeps its place, a new one goes last. *)
Fixpoint assign (k v : string) (a : list (string * string))
  : list (string * string) :=
  match a with
  | [] => [(k, v)]
  | (k', v') :: a' =>
      if String.eqb k' k then (k', v) :: a' else (k', v') :: assign k v a'
  end.

(** [e.get(k)] *)
Definition get (k : string) (e : element) : option string :=
  lookup k (attrib_of e).

(** [e.set(k, v)] *)
Definition set_attr (k v : string) (e : element) : element :=
  match e with Element t a c => Element t (assign k v a) c end.

(** [if k not in e.attrib: e.set(k, v)] *)
Definition set_default (k v : string) (e : element) : element :=
  match get k e with
  | Some _ => e
  | None => set_attr k v e
  end.

Definition has_tag (t : string) (e : element) : bool :=
  String.eqb (tag_of e) t.

Definition vtype_id : string := "car_stable".

(** [vt.get("id") == vtype_id] *)
Definition is_target (vt : element) : bool :=
  match get "id" vt with
  | Some i => String.eqb i vtype_id
  | None => false
  end.

Definition stabilise (vt : element) : element :=
  set_attr "speedDev" "0" (set_attr "sigma" "0" vt).

Definition fill_depart (v : element) : element :=
  set_default "departSpeed" "max"
    (set_default "departPos" "base"
       (set_default "departLane" "best" v)).

(** [for c in root.findall(t): body(c)], the children updated in place. *)
Definition for_each (t : string) (body : element -> element)
  (cs : list element) : list element :=
  map (fun c => if has_tag t c then body c else c) cs.

(** The statements up to the first [tree.write]. *)
Definition first_pass (root : element) : element :=
  let cs := children_of root in
  let vtypes := filter (has_tag "vType") cs in
  let has_target_vtype := existsb is_target vtypes in
  let cs :=
    if negb has_target_vtype
    then Element "vType"
           [ ("id"%string, vtype_id); ("sigma"%string, "0"%string);
             ("speedDev"%string, "0"%string) ] [] :: cs
    else for_each "vType"
           (fun vt => if is_target vt then stabilise vt else vt) cs in
  let bound := fun v => fill_depart (set_attr "type" vtype_id v) in
  let cs := for_each "vehicle" bound cs in
  let cs := for_each "flow" bound cs in
  Element (tag_of root) (attrib_of root) cs.

(** The statements after it, up to the second [tree.write]. *)
Definition second_pass (root : element) : element :=
  let cs := for_each "vType" stabilise (children_of root) in
  let cs := for_each "vehicle" fill_depart cs in
  let cs := for_each "flow" fill_depart cs in
  Element (tag_of root) (attrib_of root) cs.

(** What a run leaves: the file rewritten, or [FileNotFoundError] raised by
    [require_exists] with nothing written. *)
Inductive outcome : Type :=
| Written (root : element)
| FileNotFoundError.

(** [patch_routes_for_stability] on the content of the routes file, [None]
    when the file does not exist. *)
Definition patch_routes_for_stability (file : option element) : outcome :=
  match file with
  | None => FileNotFoundError
  | Some root => Written (second_pass (first_pass root))
  end.

End Routes.

(** A routes file as randomTrips writes it: a vType of its own, a vehicle
    with a route and a departure lane, a flow, and an element the patch has
    no business with. *)
Definition routes_example : Routes.element :=
  Routes.Element "routes" [ ("version"%string, "1.9"%string) ]
    [ Routes.Element "vType"
        [ ("id"%string, "fast"%string); ("sigma"%string, "0.5"%string) ] [];
      Routes.Element "vehicle"
        [ ("id"%string, "0"%string); ("depart"%string, "0.00"%string);
          ("departLane"%string, "free"%string) ]
        [ Routes.Element "route" [ ("edges"%string, "a b"%string) ] [] ];
      Routes.Element "flow"
        [ ("id"%string, "f0"%string); ("type"%string, "fast"%string) ] [];
      Routes.Element "interval" [ ("begin"%string, "0"%string) ] [] ].

(** What the patch makes of it. *)
Definition routes_example_patched : Routes.element :=
  Routes.Element "routes" [ ("version"%string, "1.9"%string) ]
    [ Routes.Element "vType"
        [ ("id"%string, "car_stable"%string); ("sigma"%string, "0"%string);
          ("speedDev"%string, "0"%string) ] [];
      Routes.Element "vType"
        [ ("id"%string, "fast"%string); ("sigma"%string, "0"%string);
          ("speedDev"%string, "0"%string) ] [];
      Routes.Element "vehicle"
        [ ("id"%string, "0"%string); ("depart"%string, "0.00"%string);
          ("departLane"%string, "free"%string);
          ("type"%string, "car_stable"%string);
          ("departPos"%string, "base"%string);
          ("departSpeed"%string, "max"%string) ]
        [ Routes.Element "route" [ ("edges"%string, "a b"%string) ] [] ];
      Routes.Element "flow"
        [ ("id"%string, "f0"%string); ("type"%string, "car_stable"%string);
          ("departLane"%string, "best"%string);
          ("departPos"%string, "base"%string);
          ("departSpeed"%string, "max"%string) ] [];
      Routes.Element "interval" [ ("begin"%string, "0"%string) ] [] ].

(** * Properties *)

(** ** Comparisons that order their carrier *)

Record total_cmp {A : Type} (cmp : A -> A -> comparison) : Prop := {
  cmp_refl : forall a, cmp a a = Eq;
  cmp_antisym : forall a b, cmp a b = CompOpp (cmp b a);
  cmp_eq_l : forall a b c, cmp a b = Eq -> cmp a c = cmp b c;
  cmp_lt_trans : forall a b c, cmp a b = Lt -> cmp b c = Lt -> cmp a c = Lt
}.

Section TotalCmp.
Context {A : Type} (cmp : A -> A -> comparison) (H : total_cmp cmp).

Lemma cmp_eq_sym a b : cmp a b = Eq -> cmp b a = Eq.
Proof.
  intros E. rewrite (cmp_antisym cmp H b a), E. reflexivity.
Qed.

Lemma cmp_eq_r a b c : cmp b c = Eq -> cmp a b = cmp a c.
Proof.
  intros E. apply cmp_eq_sym in E.
  rewrite (cmp_antisym cmp H a b), (cmp_antisym cmp H a c).
  f_equal. symmetry. apply (cmp_eq_l cmp H); exact E.
Qed.

Lemma cmp_le_trans a b c : cmp a b <> Gt -> cmp b c <> Gt -> cmp a c <> Gt.
Proof.
  intros Hab Hbc.
  destruct (cmp a b) eqn:Eab; [ | | congruence ].
  - rewrite (cmp_eq_l cmp H a b c Eab). exact Hbc.
  - destruct (cmp b c) eqn:Ebc; [ | | congruence ].
    + rewrite <- (cmp_eq_r a b c Ebc), Eab. discriminate.
    + rewrite (cmp_lt_trans cmp H a b c Eab Ebc). discriminate.
Qed.

Lemma cmp_gt_flip a b : cmp a b = Gt -> cmp b a = Lt.
Proof.
  intros E. rewrite (cmp_antisym cmp H b a), E. reflexivity.
Qed.

Lemma cell_compare_total : total_cmp (cell_compare cmp).
Proof.
  split.
  - intros [a|]; simpl; [apply (cmp_refl cmp H) | reflexivity].
  - intros [a|] [b|]; simpl; try reflexivity. apply (cmp_antisym cmp H).
  - intros [a|] [b|] [c|]; simpl; try congruence. apply (cmp_eq_l cmp H).
  - intros [a|] [b|] [c|]; simpl; try congruence. apply (cmp_lt_trans cmp H).
Qed.
End TotalCmp.

Lemma ascii_compare_total : total_cmp Ascii.compare.
Proof.
  unfold Ascii.compare. split; intros.
  - apply N.compare_refl.
  - apply N.compare_antisym.
  - apply N.compare_eq in H. rewrite H. reflexivity.
  - rewrite N.compare_lt_iff in *. lia.
Qed.

Lemma string_compare_total : total_cmp String.compare.
Proof.
  split.
  - induction a as [|c s IH]; simpl; [reflexivity|].
    rewrite (cmp_refl _ ascii_compare_total). exact IH.
  - apply String.compare_antisym.
  - intros a b c E. apply String.compare_eq_iff in E. subst. reflexivity.
  - induction a as [|x a IH]; intros [|y b] [|z c]; simpl; try congruence.
    destruct (Ascii.compare x y) eqn:Exy; try congruence;
    destruct (Ascii.compare y z) eqn:Eyz; try congruence; intros Hab Hbc.
    + rewrite (cmp_eq_l _ ascii_compare_total x y z Exy), Eyz. eauto.
    + rewrite (cmp_eq_l _ ascii_compare_total x y z Exy), Eyz. reflexivity.
    + rewrite <- (cmp_eq_r _ ascii_compare_total x y z Eyz), Exy. reflexivity.
    + rewrite (cmp_lt_trans _ ascii_compare_total x y z Exy Eyz). reflexivity.
Qed.

Lemma Qcompare_total : total_cmp Qcompare.
Proof.
  split.
  - intros a. apply Qeq_alt. reflexivity.
  - intros a b. symmetry. apply Qcompare_antisym.
  - intros a b c E. apply Qeq_alt in E. rewrite E. reflexivity.
  - intros a b c. rewrite <- !Qlt_alt. apply Qlt_trans.
Qed.

Definition id_compare : option string -> option string -> comparison :=
  cell_compare String.compare.

Definition time_compare : option Q -> option Q -> comparison :=
  cell_compare Qcompare.

Lemma id_compare_total : total_cmp id_compare.
Proof. apply cell_compare_total, string_compare_total. Qed.

Lemma time_compare_total : total_cmp time_compare.
Proof. apply cell_compare_total, Qcompare_total. Qed.

Lemma id_compare_eq a b : id_compare a b = Eq <-> a = b.
Proof.
  split.
  - destruct a, b; simpl; try congruence.
    intros E. apply String.compare_eq_iff in E. congruence.
  - intros ->. apply (cmp_refl _ id_compare_total).
Qed.

Lemma row_compare_total : total_cmp row_compare.
Proof.
  pose proof id_compare_total as HI. pose proof time_compare_total as HT.
  unfold row_compare. fold id_compare time_compare.
  split.
  - intros a. rewrite (cmp_refl _ HI). apply (cmp_refl _ HT).
  - intros a b. rewrite (cmp_antisym _ HI (vehicle_id a) (vehicle_id b)).
    destruct (id_compare (vehicle_id b) (vehicle_id a)); simpl; try reflexivity.
    apply (cmp_antisym _ HT).
  - intros a b c.
    destruct (id_compare (vehicle_id a) (vehicle_id b)) eqn:E; try congruence.
    intros ET. rewrite (cmp_eq_l _ HI _ _ (vehicle_id c) E).
    rewrite (cmp_eq_l _ HT _ _ (timestep_time c) ET). reflexivity.
  - intros a b c.
    destruct (id_compare (vehicle_id a) (vehicle_id b)) eqn:Eab; try congruence;
    destruct (id_compare (vehicle_id b) (vehicle_id c)) eqn:Ebc; try congruence;
    intros Hab Hbc.
    + rewrite (cmp_eq_l _ HI _ _ (vehicle_id c) Eab), Ebc.
      apply (cmp_lt_trans _ HT _ _ _ Hab Hbc).
    + rewrite (cmp_eq_l _ HI _ _ (vehicle_id c) Eab), Ebc. reflexivity.
    + rewrite <- (cmp_eq_r _ HI (vehicle_id a) _ _ Ebc), Eab. reflexivity.
    + rewrite (cmp_lt_trans _ HI _ _ _ Eab Ebc). reflexivity.
Qed.

Lemma row_le_iff a b : row_le a b <-> row_compare a b <> Gt.
Proof.
  unfold row_le, row_leb. destruct (row_compare a b); split; congruence.
Qed.

Lemma row_le_trans a b c : row_le a b -> row_le b c -> row_le a c.
Proof.
  rewrite !row_le_iff. apply (cmp_le_trans _ row_compare_total).
Qed.

Lemma row_leb_false a b : row_leb a b = false -> row_le b a.
Proof.
  unfold row_le, row_leb. intros E.
  destruct (row_compare a b) eqn:C; try discriminate.
  rewrite (cmp_gt_flip _ row_compare_total a b C). reflexivity.
Qed.

(** ** The insertion sort meets the sort contract *)

Lemma insert_row_perm r q : Permutation (r :: q) (insert_row r q).
Proof.
  induction q as [|x q IH]; simpl; [reflexivity|].
  destruct (row_leb r x); [reflexivity|].
  rewrite perm_swap. apply perm_skip, IH.
Qed.

Lemma insertion_sort_perm q : Permutation q (insertion_sort q).
Proof.
  induction q as [|r q IH]; simpl; [reflexivity|].
  rewrite <- insert_row_perm. apply perm_skip, IH.
Qed.

Lemma insert_row_sorted r q :
  StronglySorted row_le q -> StronglySorted row_le (insert_row r q).
Proof.
  induction 1 as [|x q Hq IH Hx]; simpl.
  - repeat constructor.
  - destruct (row_leb r x) eqn:E.
    + constructor; [constructor; assumption|].
      constructor; [exact E|].
      eapply Forall_impl; [|exact Hx].
      intros y Hy. eapply row_le_trans; eassumption.
    + constructor; [exact IH|].
      apply (Permutation_Forall (insert_row_perm r q)).
      constructor; [apply row_leb_false, E | exact Hx].
Qed.

Lemma insertion_sort_sorted q : StronglySorted row_le (insertion_sort q).
Proof.
  induction q as [|r q IH]; simpl; [constructor|].
  apply insert_row_sorted, IH.
Qed.

Definition stable_sort : DataFrameSort := {|
  df_sort := insertion_sort;
  df_sort_perm := insertion_sort_perm;
  df_sort_sorted := insertion_sort_sorted
|}.

(** ** Exact arithmetic as a [Float64]

    An arithmetic on which the definitions can be run.  It is used only to
    instantiate theorems that hold for every [Float64], at bucket widths 0
    and 1, where the float64 quotient is the exact one. *)

Lemma exact_floor_div_one t :
  exact_floor_div t 1 =
  if fits_int64 (Qfloor t) then Some (Qfloor t) else None.
Proof.
  unfold exact_floor_div.
  assert (Qfloor (t / 1) = Qfloor t) as ->.
  { destruct t as [n d]. unfold Qdiv, Qmult, Qinv. simpl.
    rewrite Z.mul_1_r, Pos.mul_1_r. reflexivity. }
  reflexivity.
Qed.

Definition exact_float64 : Float64 := {|
  floor_div_cast := exact_floor_div;
  floor_div_cast_one := exact_floor_div_one
|}.


(** ** Lists *)

Lemma subseq_refl {A : Type} (l : list A) : subseq l l.
Proof. induction l; constructor; assumption. Qed.

Lemma subseq_In {A : Type} (l1 l2 : list A) :
  subseq l1 l2 -> forall x, In x l1 -> In x l2.
Proof.
  induction 1; simpl; intros y Hy; auto.
  destruct Hy; auto.
Qed.

Lemma subseq_trans {A : Type} (l1 l2 l3 : list A) :
  subseq l1 l2 -> subseq l2 l3 -> subseq l1 l3.
Proof.
  intros H12 H23. revert l1 H12.
  induction H23; intros k H12.
  - exact H12.
  - inversion H12; subst; constructor; auto.
  - constructor; auto.
Qed.

Lemma subseq_filter {A : Type} (f : A -> bool) (l : list A) :
  subseq (filter f l) l.
Proof.
  induction l as [|x l IH]; simpl; [constructor|].
  destruct (f x); constructor; exact IH.
Qed.

Lemma subseq_firstn {A : Type} (n : nat) (l : list A) : subseq (firstn n l) l.
Proof.
  revert l. induction n as [|n IH]; intros [|x l]; simpl;
    try constructor; auto.
  clear. induction l; constructor; auto.
Qed.

Lemma subseq_length {A : Type} (l1 l2 : list A) :
  subseq l1 l2 -> (length l1 <= length l2)%nat.
Proof. induction 1; simpl; lia. Qed.

Lemma subseq_map {A B : Type} (f : A -> B) (l1 l2 : list A) :
  subseq l1 l2 -> subseq (map f l1) (map f l2).
Proof. induction 1; simpl; constructor; assumption. Qed.

Lemma mapM_Forall2 {A B : Type} (f : A -> result B) (l : list A) (bs : list B) :
  mapM f l = Ok bs -> Forall2 (fun a b => f a = Ok b) l bs.
Proof.
  revert bs. induction l as [|a l IH]; simpl; intros bs E.
  - injection E as <-. constructor.
  - destruct (f a) as [b|e] eqn:Ea; simpl in E; [|discriminate].
    destruct (mapM f l) as [bs'|e] eqn:El; simpl in E; [|discriminate].
    injection E as <-. constructor; auto.
Qed.

Lemma mapM_total {A B : Type} (f : A -> result B) (l : list A) :
  Forall (fun a => exists b, f a = Ok b) l -> exists bs, mapM f l = Ok bs.
Proof.
  induction 1 as [|a l [b Eb] _ [bs Ebs]]; simpl.
  - eexists; reflexivity.
  - rewrite Eb, Ebs. simpl. eexists; reflexivity.
Qed.

Lemma mapM_length {A B : Type} (f : A -> result B) (l : list A) (bs : list B) :
  mapM f l = Ok bs -> length bs = length l.
Proof.
  intros E. apply mapM_Forall2 in E. symmetry.
  induction E; simpl; congruence.
Qed.

Lemma Forall2_In_r {A B : Type} (R : A -> B -> Prop) (l : list A) (bs : list B) :
  Forall2 R l bs -> forall b, In b bs -> exists a, In a l /\ R a b.
Proof.
  induction 1 as [|a b l bs Hab _ IH]; simpl; intros y Hy; [contradiction|].
  destruct Hy as [<-|Hy].
  - exists a; auto.
  - destruct (IH y Hy) as [a' [Ha' HR]]. exists a'; auto.
Qed.

(** ** The row cap *)

Lemma over_limit_iff max_pts q :
  over_limit max_pts q = true <-> (0 < max_pts)%Z /\ (max_pts < height q)%Z.
Proof.
  unfold over_limit.
  rewrite !andb_true_iff, negb_true_iff, Z.eqb_neq, !Z.ltb_lt. lia.
Qed.

Lemma cap_off max_pts q :
  ~ ((0 < max_pts)%Z /\ (max_pts < height q)%Z) -> cap max_pts q = (q, false).
Proof.
  intros H. unfold cap.
  destruct (over_limit max_pts q) eqn:E; [|reflexivity].
  apply over_limit_iff in E. contradiction.
Qed.

Lemma cap_subseq max_pts q : subseq (fst (cap max_pts q)) q.
Proof.
  unfold cap. destruct (over_limit max_pts q); simpl.
  - apply subseq_firstn.
  - apply subseq_refl.
Qed.

Lemma cap_flag max_pts q : snd (cap max_pts q) = over_limit max_pts q.
Proof. unfold cap. destruct (over_limit max_pts q); reflexivity. Qed.

(** ** The facades factor through their views *)

Lemma has_lon_lat_float r :
  has_lon_lat r = true ->
  exists x y, vehicle_x r = Some x /\ vehicle_y r = Some y.
Proof.
  unfold has_lon_lat. destruct (vehicle_x r), (vehicle_y r); simpl;
    try discriminate; eauto.
Qed.

Lemma mapM_coord_of q :
  Forall (fun r => has_lon_lat r = true) q ->
  exists cs, mapM coord_of q = Ok cs.
Proof.
  intros H. apply mapM_total. eapply Forall_impl; [|exact H].
  intros r Hr. destruct (has_lon_lat_float r Hr) as [x [y [Ex Ey]]].
  unfold coord_of. rewrite Ex, Ey. simpl. eauto.
Qed.

Lemma trajectory_view_lon_lat d vid ts te :
  Forall (fun r => has_lon_lat r = true) (trajectory_view d vid ts te).
Proof.
  apply Forall_forall. intros r Hr.
  assert (In r (filter has_lon_lat (filter (is_vehicle vid) d))) as Hin.
  { unfold trajectory_view in Hr. destruct ts, te; auto.
    unfold _apply_time in Hr. apply filter_In in Hr. tauto. }
  apply filter_In in Hin. tauto.
Qed.

Lemma subseq_Forall {A : Type} (P : A -> Prop) (l1 l2 : list A) :
  subseq l1 l2 -> Forall P l2 -> Forall P l1.
Proof.
  intros S F. rewrite Forall_forall in *. intros x Hx.
  apply F. eapply subseq_In; eassumption.
Qed.

Lemma trajectory_unfold d vid ts te max_pts :
  trajectory d vid ts te max_pts =
  (let capped := cap max_pts (trajectory_view d vid ts te) in
   points <- mapM track_point_of (fst capped) ;;
   Ok {| tr_vehicleId := vid;
         tr_truncated := snd capped;
         tr_pointCount := Z.of_nat (length points);
         tr_coordinates := map (fun p => (tp_lon p, tp_lat p)) points;
         tr_points := points |}).
Proof.
  unfold trajectory. fold (trajectory_view d vid ts te).
  set (v := trajectory_view d vid ts te).
  pose proof (subseq_Forall _ _ _ (cap_subseq max_pts v)
                (trajectory_view_lon_lat d vid ts te)) as Hll.
  fold v in Hll. cbv zeta.
  destruct (cap max_pts v) as [q trunc]. simpl fst in *. simpl snd.
  clear v.
  assert (forall cs ps, mapM coord_of q = Ok cs -> mapM track_point_of q = Ok ps ->
          cs = map (fun p => (tp_lon p, tp_lat p)) ps) as Hcs.
  { clear. induction q as [|r q IH]; simpl; intros cs ps Ec Ep.
    - injection Ec as <-. injection Ep as <-. reflexivity.
    - destruct (coord_of r) as [c|] eqn:Er; simpl in Ec; [|discriminate].
      destruct (track_point_of r) as [p|] eqn:Et; simpl in Ep; [|discriminate].
      destruct (mapM coord_of q) as [cs'|]; simpl in Ec; [|discriminate].
      destruct (mapM track_point_of q) as [ps'|]; simpl in Ep; [|discriminate].
      assert (c = (tp_lon p, tp_lat p)) as ->.
      { unfold coord_of, track_point_of in Er, Et.
        destruct (float (timestep_time r)), (float (vehicle_x r)),
          (float (vehicle_y r)); simpl in Er, Et; try discriminate.
        injection Er as <-. injection Et as <-. reflexivity. }
      injection Ec as <-. injection Ep as <-. simpl. f_equal. auto. }
  destruct (mapM_coord_of q Hll) as [cs Ecs]. rewrite Ecs. simpl.
  destruct (mapM track_point_of q) as [ps|e] eqn:Eps; simpl; [|reflexivity].
  rewrite (Hcs cs ps Ecs eq_refl), length_map. reflexivity.
Qed.

Lemma query_unfold {float64 : Float64} d ts te bbox ids max_pts every :
  query d ts te bbox ids max_pts every =
  (v <- query_view d ts te bbox ids every ;;
   let capped := cap max_pts v in
   points <- mapM point_of (fst capped) ;;
   Ok (points, vehicle_ids_hit v,
       {| rows := Z.of_nat (length points);
          vehicles := Z.of_nat (length (vehicle_ids_hit v));
          truncated := snd capped;
          sample_every := every;
          max_points := max_pts |})).
Proof.
  unfold query, query_view.
  destruct (_apply_bbox (_apply_time d ts te) bbox) as [q|e]; simpl; [|reflexivity].
  destruct (_sample (filter has_lon_lat (_apply_ids q ids)) every) as [v|e];
    simpl; [|reflexivity].
  destruct (cap max_pts v) as [q' trunc]. reflexivity.
Qed.

(** ** Grouping keeps the first row of every key *)

Section GroupFirst.
Variable key : row -> group_key.

Definition has_key (k : group_key) (r : row) : bool :=
  if group_key_eq_dec (key r) k then true else false.

Lemma seen_key_true k seen : seen_key k seen = true <-> In k seen.
Proof.
  unfold seen_key. destruct (in_dec group_key_eq_dec k seen); split;
    auto; discriminate.
Qed.


Lemma has_key_true k r : has_key k r = true <-> key r = k.
Proof.
  unfold has_key. destruct (group_key_eq_dec (key r) k); split;
    auto; discriminate.
Qed.

Lemma group_first_subseq seen q : subseq (group_first key seen q) q.
Proof.
  revert seen. induction q as [|r q IH]; intros seen; simpl; [constructor|].
  destruct (seen_key (key r) seen); constructor; apply IH.
Qed.



Lemma group_first_find seen q k :
  ~ In k seen ->
  find (has_key k) (group_first key seen q) = find (has_key k) q.
Proof.
  revert seen. induction q as [|x q IH]; intros seen Hk; simpl; [reflexivity|].
  destruct (seen_key (key x) seen) eqn:E.
  - apply seen_key_true in E.
    destruct (has_key k x) eqn:Ex.
    + apply has_key_true in Ex. congruence.
    + apply IH, Hk.
  - simpl. destruct (has_key k x) eqn:Ex; [reflexivity|].
    apply IH. intros [Eq|Hin]; [|tauto].
    assert (has_key k x = true) by (apply has_key_true; exact Eq).
    congruence.
Qed.

Lemma group_first_idem seen q :
  group_first key seen (group_first key seen q) = group_first key seen q.
Proof.
  revert seen. induction q as [|x q IH]; intros seen; simpl; [reflexivity|].
  destruct (seen_key (key x) seen) eqn:E; [apply IH|].
  simpl. rewrite E. f_equal. apply IH.
Qed.


End GroupFirst.


Lemma sample_on {float64 : Float64} q every :
  0 < every ->
  _sample q every =
    if existsb (cast_fails every) q
    then Raise (InvalidOperationError "conversion from `f64` to `i64` failed")
    else Ok (group_first (key_of every) [] q).
Proof.
  intros H. unfold _sample.
  destruct (Qle_bool every 0) eqn:E; [|reflexivity].
  apply Qle_bool_iff in E. exfalso. apply (Qlt_not_le _ _ H E).
Qed.

(** What a returning sampler returned. *)
Lemma sample_ok {float64 : Float64} q every s :
  _sample q every = Ok s ->
  (every <= 0 /\ s = q) \/
  (0 < every /\ (forall r, In r q -> cast_fails every r = false) /\
   s = group_first (key_of every) [] q).
Proof.
  unfold _sample. destruct (Qle_bool every 0) eqn:E.
  - intros [= <-]. left. split; [apply Qle_bool_iff, E | reflexivity].
  - destruct (existsb (cast_fails every) q) eqn:Ec; [discriminate|].
    intros [= <-]. right. split; [|split; [|reflexivity]].
    + apply Qnot_le_lt. intros H. apply Qle_bool_iff in H. congruence.
    + intros r Hr. destruct (cast_fails every r) eqn:Er; [|reflexivity].
      assert (existsb (cast_fails every) q = true) as Ht
        by (apply existsb_exists; eauto).
      congruence.
Qed.



Lemma sample_nil {float64 : Float64} every : _sample [] every = Ok [].
Proof. unfold _sample. destruct (Qle_bool every 0); reflexivity. Qed.

Lemma sample_subseq {float64 : Float64} q every s :
  _sample q every = Ok s -> subseq s q.
Proof.
  intros H. destruct (sample_ok q every s H) as [[_ ->]|[_ [_ ->]]].
  - apply subseq_refl.
  - apply group_first_subseq.
Qed.

(** ** Filters *)

Lemma cell_ge_iff c lo : cell_ge c lo = true <-> exists v, c = Some v /\ lo <= v.
Proof.
  unfold cell_ge. destruct c as [v|].
  - rewrite Qle_bool_iff. split; [eauto|]. intros [v' [[= <-] H]]. exact H.
  - split; [discriminate|]. intros [v [E _]]. discriminate.
Qed.

Lemma cell_le_iff c hi : cell_le c hi = true <-> exists v, c = Some v /\ v <= hi.
Proof.
  unfold cell_le. destruct c as [v|].
  - rewrite Qle_bool_iff. split; [eauto|]. intros [v' [[= <-] H]]. exact H.
  - split; [discriminate|]. intros [v [E _]]. discriminate.
Qed.

Lemma in_time_iff ts te r :
  in_time ts te r = true <->
  exists t, timestep_time r = Some t /\ ts <= t /\ t <= te.
Proof.
  unfold in_time. rewrite andb_true_iff, cell_ge_iff, cell_le_iff. split.
  - intros [[t [E H]] [t' [E' H']]]. exists t. rewrite E in E'.
    injection E' as <-. auto.
  - intros [t [E [H H']]]. split; eauto.
Qed.

Lemma in_bbox_iff west south east north r :
  in_bbox west south east north r = true <->
  exists x y, vehicle_x r = Some x /\ vehicle_y r = Some y /\
              west <= x /\ x <= east /\ south <= y /\ y <= north.
Proof.
  unfold in_bbox.
  rewrite !andb_true_iff, !cell_ge_iff, !cell_le_iff. split.
  - intros [[[[[_ _] [x [Ex Hw]]] [x' [Ex' He]]] [y [Ey Hs]]] [y' [Ey' Hn]]].
    rewrite Ex in Ex'. injection Ex' as <-.
    rewrite Ey in Ey'. injection Ey' as <-.
    exists x, y. tauto.
  - intros [x [y [Ex [Ey [Hw [He [Hs Hn]]]]]]]. rewrite Ex, Ey. simpl.
    repeat split; eauto.
Qed.

Lemma is_in_iff ids r :
  is_in ids r = true <-> exists s, vehicle_id r = Some s /\ In s ids.
Proof.
  unfold is_in. destruct (vehicle_id r) as [s|].
  - destruct (in_dec string_dec s ids); split; eauto; try discriminate.
    intros [s' [[= <-] H]]. contradiction.
  - split; [discriminate|]. intros [s [E _]]. discriminate.
Qed.

Lemma apply_bbox_ok q bbox :
  bbox_arity_ok bbox = true ->
  exists q', _apply_bbox q bbox = Ok q' /\ subseq q' q.
Proof.
  destruct bbox as [l|]; simpl.
  - destruct l as [|w [|s [|e [|n [|]]]]]; try discriminate. intros _.
    eexists; split; [reflexivity | apply subseq_filter].
  - intros _. eexists; split; [reflexivity | apply subseq_refl].
Qed.

Lemma apply_bbox_raise q bbox :
  bbox_arity_ok bbox = false ->
  exists msg, _apply_bbox q bbox = Raise (ValueError msg).
Proof.
  destruct bbox as [l|]; simpl; [|discriminate].
  destruct l as [|w [|s [|e [|n [|]]]]]; try discriminate; intros _;
    eexists; reflexivity.
Qed.

Lemma apply_bbox_rows q bbox q' :
  _apply_bbox q bbox = Ok q' ->
  forall r, In r q' ->
    In r q /\
    forall w s e n, bbox = Some [w; s; e; n] -> in_bbox w s e n r = true.
Proof.
  destruct bbox as [l|]; simpl.
  - destruct l as [|w [|s [|e [|n [|]]]]]; try discriminate.
    intros [= <-] r Hr. apply filter_In in Hr. destruct Hr as [Hr Hb].
    split; [exact Hr|]. intros w' s' e' n' [= <- <- <- <-]. exact Hb.
  - intros [= <-] r Hr. split; [exact Hr | discriminate].
Qed.

Lemma apply_ids_subseq q ids : subseq (_apply_ids q ids) q.
Proof.
  destruct ids as [[|i l]|]; simpl; try apply subseq_refl.
  apply (subseq_filter (is_in (i :: l))).
Qed.

Lemma apply_ids_rows q ids r :
  In r (_apply_ids q ids) ->
  In r q /\ forall l, ids = Some l -> l <> [] -> is_in l r = true.
Proof.
  destruct ids as [[|i l]|]; simpl.
  - intros H. split; [exact H|]. intros l [= <-] Hl. congruence.
  - intros H. apply filter_In in H. destruct H as [H Hi].
    split; [exact H|]. intros l' [= <-] _. exact Hi.
  - intros H. split; [exact H | discriminate].
Qed.

Lemma query_view_ok {float64 : Float64} d ts te bbox ids every v :
  query_view d ts te bbox ids every = Ok v ->
  exists q1,
    _apply_bbox (_apply_time d ts te) bbox = Ok q1 /\
    _sample (filter has_lon_lat (_apply_ids q1 ids)) every = Ok v.
Proof.
  unfold query_view.
  destruct (_apply_bbox (_apply_time d ts te) bbox) as [q1|]; simpl;
    [|discriminate].
  intros H. exists q1. auto.
Qed.

(** Every row of the view [query] hands to the cap passed each filter. *)
Lemma query_view_rows {float64 : Float64} d ts te bbox ids every v :
  query_view d ts te bbox ids every = Ok v ->
  forall r, In r v ->
    In r d /\ in_time ts te r = true /\ has_lon_lat r = true /\
    (forall w s e n, bbox = Some [w; s; e; n] -> in_bbox w s e n r = true) /\
    (forall l, ids = Some l -> l <> [] -> is_in l r = true).
Proof.
  intros Hv r Hr. destruct (query_view_ok _ _ _ _ _ _ _ Hv) as [q1 [Eb Es]].
  apply (subseq_In _ _ (sample_subseq _ _ _ Es)) in Hr.
  apply filter_In in Hr. destruct Hr as [Hr Hll].
  apply apply_ids_rows in Hr. destruct Hr as [Hr Hids].
  destruct (apply_bbox_rows _ _ _ Eb r Hr) as [Hr' Hbox].
  apply filter_In in Hr'. tauto.
Qed.

Lemma point_of_total r :
  (exists t, timestep_time r = Some t) ->
  has_lon_lat r = true ->
  exists p, point_of r = Ok p.
Proof.
  intros [t Et] Hll.
  destruct (has_lon_lat_float r Hll) as [x [y [Ex Ey]]].
  unfold point_of. rewrite Et, Ex, Ey. simpl. eauto.
Qed.

Lemma query_view_points {float64 : Float64} d ts te bbox ids every v q :
  query_view d ts te bbox ids every = Ok v ->
  subseq q v ->
  exists pts, mapM point_of q = Ok pts.
Proof.
  intros Hv Hq. apply mapM_total. apply Forall_forall. intros r Hr.
  apply (subseq_In _ _ Hq) in Hr.
  destruct (query_view_rows _ _ _ _ _ _ _ Hv r Hr) as [_ [Ht [Hll _]]].
  apply point_of_total; [|exact Hll].
  apply in_time_iff in Ht. destruct Ht as [t [E _]]. eauto.
Qed.

Lemma point_of_fields r p :
  point_of r = Ok p ->
  timestep_time r = Some (p_t p) /\ vehicle_x r = Some (p_lon p) /\
  vehicle_y r = Some (p_lat p) /\ p_vehicleId p = str (vehicle_id r).
Proof.
  unfold point_of.
  destruct (timestep_time r), (vehicle_x r), (vehicle_y r); simpl;
    try discriminate.
  intros [= <-]. simpl. tauto.
Qed.

(** ** Distinct vehicle ids *)

Lemma insert_str_length s l : length (insert_str s l) = S (length l).
Proof.
  induction l as [|x l IH]; simpl; [reflexivity|].
  destruct (String.leb s x); simpl; congruence.
Qed.

Lemma sorted_length l : length (sorted l) = length l.
Proof.
  induction l as [|x l IH]; simpl; [reflexivity|].
  rewrite insert_str_length. congruence.
Qed.

Lemma vehicle_ids_hit_count v :
  Z.of_nat (length (vehicle_ids_hit v)) = n_unique (map vehicle_id v).
Proof.
  unfold vehicle_ids_hit, n_unique. rewrite sorted_length, length_map.
  destruct (0 <? height v)%Z eqn:E; [reflexivity|].
  apply Z.ltb_ge in E. unfold height in E.
  destruct v; [reflexivity | simpl in E; lia].
Qed.

Lemma n_unique_subseq (q v : DataFrame) :
  subseq q v ->
  (n_unique (map vehicle_id q) <= n_unique (map vehicle_id v))%Z.
Proof.
  intros S. unfold n_unique, unique. apply inj_le.
  apply NoDup_incl_length; [apply NoDup_nodup|].
  intros i Hi. apply nodup_In in Hi. apply nodup_In.
  revert Hi. apply subseq_In, subseq_map, S.
Qed.

(** ** The query pipeline *)

(** C1. [query] composes its steps in a fixed order: time filter, bounding
    box, vehicle ids, drop of rows without longitude or latitude, sampling,
    then the distinct-vehicle count, then the cap.  Whenever the box unpacks
    and the sampler returns, the returned points are the capped view,
    [vehicles] counts the distinct ids of the sampled view before the cap,
    and so is at least the number of distinct ids among the returned rows.
    An exception of the unpacking, or else of the sampler, is the exception
    of the query.  With two vehicles of one matching row each and a cap of
    1, the statistics are rows = 1, vehicles = 2, truncated = true. *)
Theorem query_composition_order (float64 : Float64) :
  (forall d ts te bbox ids max_pts every q1 v,
      _apply_bbox (_apply_time d ts te) bbox = Ok q1 ->
      _sample (filter has_lon_lat (_apply_ids q1 ids)) every = Ok v ->
      let kept := fst (cap max_pts v) in
      exists pts,
        mapM point_of kept = Ok pts /\
        query d ts te bbox ids max_pts every =
          Ok (pts, vehicle_ids_hit v,
              {| rows := height kept;
                 vehicles := n_unique (map vehicle_id v);
                 truncated := snd (cap max_pts v);
                 sample_every := every;
                 max_points := max_pts |}) /\
        (n_unique (map vehicle_id kept) <= n_unique (map vehicle_id v))%Z) /\
  (forall d ts te bbox ids max_pts every e,
      _apply_bbox (_apply_time d ts te) bbox = Raise e ->
      query d ts te bbox ids max_pts every = Raise e) /\
  (forall d ts te bbox ids max_pts every q1 e,
      _apply_bbox (_apply_time d ts te) bbox = Ok q1 ->
      _sample (filter has_lon_lat (_apply_ids q1 ids)) every = Raise e ->
      query d ts te bbox ids max_pts every = Raise e) /\
  query scenario_b 0 10 None None 1 0 =
    Ok ([ {| p_t := 0; p_vehicleId := "v1"; p_lon := 10; p_lat := 50 |} ],
        [ "v1"%string; "v2"%string ],
        {| rows := 1; vehicles := 2; truncated := true;
           sample_every := 0; max_points := 1 |}).
Proof.
  split; [|split; [|split]].
  - intros d ts te bbox ids max_pts every q1 v Eb Es kept.
    assert (query_view d ts te bbox ids every = Ok v) as Hv.
    { unfold query_view. rewrite Eb. exact Es. }
    destruct (query_view_points _ _ _ _ _ _ v kept Hv (cap_subseq max_pts v))
      as [pts Epts].
    exists pts. split; [exact Epts|]. split.
    + rewrite query_unfold, Hv. simpl. fold kept. rewrite Epts. simpl.
      rewrite vehicle_ids_hit_count. unfold height.
      rewrite (mapM_length _ _ _ Epts). reflexivity.
    + apply n_unique_subseq, cap_subseq.
  - intros d ts te bbox ids max_pts every e Eb.
    unfold query. rewrite Eb. reflexivity.
  - intros d ts te bbox ids max_pts every q1 e Eb Es.
    unfold query. rewrite Eb. cbn [bind]. rewrite Es. reflexivity.
  - vm_compute. reflexivity.
Qed.

Lemma query_composition_order_witness :
  exists pts,
    mapM point_of (fst (cap 1 scenario_b)) = Ok pts /\
    @query exact_float64 scenario_b 0 10 None None 1 0 =
      Ok (pts, vehicle_ids_hit scenario_b,
          {| rows := height (fst (cap 1 scenario_b));
             vehicles := n_unique (map vehicle_id scenario_b);
             truncated := snd (cap 1 scenario_b);
             sample_every := 0;
             max_points := 1 |}) /\
    (n_unique (map vehicle_id (fst (cap 1 scenario_b)))
       <= n_unique (map vehicle_id scenario_b))%Z.
Proof.
  apply (proj1 (query_composition_order exact_float64)
           scenario_b 0 10 None None 1%Z 0 scenario_b scenario_b);
    reflexivity.
Defined.

(** C2. The cap, as [query] and [trajectory] both apply it: a limit of zero
    or less returns the view unchanged with truncated = false; a positive
    limit below the row count keeps exactly the first [max_points] rows, in
    order, with truncated = true; a positive limit not below the row count
    changes nothing.  So truncated holds exactly when the limit is positive
    and the view before the cap has more rows than the limit.  [query]
    returns the capped view of its sampled rows and [trajectory] the capped
    view of the vehicle's rows, each with that flag. *)
Theorem truncation_contract (float64 : Float64) :
  (forall max_pts q, (max_pts <= 0)%Z -> cap max_pts q = (q, false)) /\
  (forall max_pts q, (0 < max_pts)%Z -> (max_pts < height q)%Z ->
      cap max_pts q = (firstn (Z.to_nat max_pts) q, true) /\
      height (fst (cap max_pts q)) = max_pts) /\
  (forall max_pts q, (0 < max_pts)%Z -> (height q <= max_pts)%Z ->
      cap max_pts q = (q, false)) /\
  (forall max_pts q,
      snd (cap max_pts q) = true <-> (0 < max_pts)%Z /\ (max_pts < height q)%Z) /\
  (forall d ts te bbox ids max_pts every v,
      query_view d ts te bbox ids every = Ok v ->
      exists pts hit st,
        query d ts te bbox ids max_pts every = Ok (pts, hit, st) /\
        mapM point_of (fst (cap max_pts v)) = Ok pts /\
        truncated st = snd (cap max_pts v) /\
        rows st = height (fst (cap max_pts v))) /\
  (forall d vid ts te max_pts t,
      trajectory d vid ts te max_pts = Ok t ->
      let v := trajectory_view d vid ts te in
      mapM track_point_of (fst (cap max_pts v)) = Ok (tr_points t) /\
      tr_truncated t = snd (cap max_pts v) /\
      tr_pointCount t = height (fst (cap max_pts v))).
Proof.
  pose proof cap_off as Hoff.
  split; [|split; [|split; [|split; [|split]]]].
  - intros max_pts q H. apply Hoff. lia.
  - intros max_pts q H0 H1. unfold cap.
    rewrite (proj2 (over_limit_iff max_pts q)) by lia. split; [reflexivity|].
    unfold head, height in *. simpl. rewrite firstn_length_le; lia.
  - intros max_pts q H0 H1. apply Hoff. lia.
  - intros max_pts q. rewrite cap_flag. apply over_limit_iff.
  - intros d ts te bbox ids max_pts every v Hv.
    destruct (query_view_points _ _ _ _ _ _ v _ Hv (cap_subseq max_pts v))
      as [pts Epts].
    rewrite query_unfold, Hv. simpl. rewrite Epts. simpl.
    do 3 eexists. split; [reflexivity|]. simpl. repeat split.
    unfold height. rewrite (mapM_length _ _ _ Epts). reflexivity.
  - intros d vid ts te max_pts t H v.
    rewrite trajectory_unfold in H. cbv zeta in H. fold v in H.
    destruct (mapM track_point_of _) as [ps|] eqn:E; simpl in H; [|discriminate].
    injection H as <-. simpl. repeat split.
    unfold height. rewrite (mapM_length _ _ _ E). reflexivity.
Qed.

Lemma truncation_contract_witness :
  cap 1 scenario_b = (firstn 1 scenario_b, true) /\
  height (fst (cap 1 scenario_b)) = 1%Z.
Proof.
  apply (proj1 (proj2 (truncation_contract exact_float64)) 1%Z scenario_b).
  - reflexivity.
  - reflexivity.
Defined.

(** C6. Every point [query] returns lies in the closed time range; when a
    four-component box was given it lies in the closed box; when a
    non-empty id list was given its vehicle id is in the list.  When
    timeStart is above timeEnd and the box unpacks, the call succeeds with
    no points, no ids, and truncated = false. *)
Theorem query_filter_soundness (float64 : Float64) (d : DataFrame) (ts te : Q)
  (bbox : option (list Q)) (ids : option (list string))
  (max_pts : Z) (every : Q) :
  (forall pts hit st,
      query d ts te bbox ids max_pts every = Ok (pts, hit, st) ->
      forall p, In p pts ->
        (ts <= p_t p /\ p_t p <= te) /\
        (forall w s e n, bbox = Some [w; s; e; n] ->
           (w <= p_lon p /\ p_lon p <= e) /\ (s <= p_lat p /\ p_lat p <= n)) /\
        (forall l, ids = Some l -> l <> [] -> In (p_vehicleId p) l)) /\
  (te < ts -> bbox_arity_ok bbox = true ->
      query d ts te bbox ids max_pts every =
        Ok ([], [],
            {| rows := 0; vehicles := 0; truncated := false;
               sample_every := every; max_points := max_pts |})).
Proof.
  split.
  - intros pts hit st Hq p Hp.
    rewrite query_unfold in Hq.
    destruct (query_view d ts te bbox ids every) as [v|] eqn:Hv;
      simpl in Hq; [|discriminate].
    destruct (mapM point_of (fst (cap max_pts v))) as [ps|] eqn:Eps;
      simpl in Hq; [|discriminate].
    injection Hq as <- _ _.
    destruct (Forall2_In_r _ _ _ (mapM_Forall2 _ _ _ Eps) p Hp) as [r [Hr Er]].
    apply (subseq_In _ _ (cap_subseq max_pts v)) in Hr.
    destruct (query_view_rows _ _ _ _ _ _ _ Hv r Hr)
      as [_ [Ht [_ [Hbox Hids]]]].
    destruct (point_of_fields r p Er) as [Et [Ex [Ey Ei]]].
    split; [|split].
    + apply in_time_iff in Ht. destruct Ht as [t [E H]].
      rewrite Et in E. injection E as <-. exact H.
    + intros w s e n Eb. specialize (Hbox w s e n Eb).
      apply in_bbox_iff in Hbox.
      destruct Hbox as [x [y [Ex' [Ey' H]]]].
      rewrite Ex in Ex'. injection Ex' as <-.
      rewrite Ey in Ey'. injection Ey' as <-. tauto.
    + intros l El Hl. specialize (Hids l El Hl).
      apply is_in_iff in Hids. destruct Hids as [s [Es Hin]].
      rewrite Ei, Es. exact Hin.
  - intros Hlt Hb.
    assert (_apply_time d ts te = []) as Hempty.
    { unfold _apply_time. induction d as [|r d IH]; simpl; [reflexivity|].
      destruct (in_time ts te r) eqn:E; [|exact IH].
      apply in_time_iff in E. destruct E as [t [_ [H1 H2]]].
      exfalso. apply (Qlt_not_le _ _ Hlt). eapply Qle_trans; eassumption. }
    unfold query. rewrite Hempty.
    destruct (apply_bbox_ok [] bbox Hb) as [q' [-> Hs]]. simpl.
    inversion Hs; subst.
    assert (_apply_ids [] ids = []) as ->
      by (destruct ids as [[|i l]|]; reflexivity).
    cbn [filter]. rewrite sample_nil. cbn [bind].
    rewrite (cap_off max_pts []) by (unfold height; simpl; lia).
    reflexivity.
Qed.

Lemma query_filter_soundness_witness :
  @query exact_float64 scenario_a 2 0 (Some [0; 0; 100; 100]) (Some ["v1"%string]) 0 1 =
    Ok ([], [],
        {| rows := 0; vehicles := 0; truncated := false;
           sample_every := 1; max_points := 0 |}).
Proof.
  apply (proj2 (query_filter_soundness exact_float64 scenario_a 2 0
                  (Some [0; 0; 100; 100]) (Some ["v1"%string]) 0 1)).
  - reflexivity.
  - reflexivity.
Defined.

(** C7. The vehicle-id filter with no list, or with an empty list, returns
    the view unchanged; with a non-empty list it keeps, in order, exactly
    the rows whose vehicle id is one of the list. *)
Theorem apply_ids_policy (q : DataFrame) :
  _apply_ids q None = q /\
  _apply_ids q (Some []) = q /\
  (forall ids, ids <> [] ->
      _apply_ids q (Some ids) = filter (is_in ids) q /\
      forall r, In r (_apply_ids q (Some ids)) <->
                In r q /\ exists s, vehicle_id r = Some s /\ In s ids).
Proof.
  split; [reflexivity|]. split; [reflexivity|].
  intros ids Hne. destruct ids as [|i l]; [congruence|]. simpl.
  split; [reflexivity|].
  intros r. rewrite filter_In, is_in_iff. reflexivity.
Qed.

Lemma apply_ids_policy_witness :
  _apply_ids scenario_b (Some ["v2"%string]) = [ fcd 0 "v2" 20 60 ].
Proof.
  rewrite (proj1 (proj2 (proj2 (apply_ids_policy scenario_b))
                    ["v2"%string] ltac:(discriminate))).
  reflexivity.
Defined.

(** ** Sorted frames *)

Lemma StronglySorted_app_r {A : Type} (R : A -> A -> Prop) (l1 l2 : list A) :
  StronglySorted R (l1 ++ l2) -> StronglySorted R l2.
Proof.
  induction l1 as [|x l1 IH]; simpl; [auto|].
  intros H. inversion H; auto.
Qed.

Lemma subseq_StronglySorted {A : Type} (R : A -> A -> Prop) (l1 l2 : list A) :
  subseq l1 l2 -> StronglySorted R l2 -> StronglySorted R l1.
Proof.
  induction 1 as [|x l1 l2 S IH|x l1 l2 S IH]; intros H.
  - constructor.
  - inversion H as [|? ? Hs Hf]; subst. constructor; [auto|].
    eapply subseq_Forall; eassumption.
  - inversion H; auto.
Qed.

Lemma row_le_same_vehicle r1 r2 t1 t2 :
  row_le r1 r2 -> vehicle_id r1 = vehicle_id r2 ->
  timestep_time r1 = Some t1 -> timestep_time r2 = Some t2 ->
  t1 <= t2.
Proof.
  rewrite row_le_iff. unfold row_compare. intros H Ev E1 E2.
  fold id_compare in H.
  rewrite (proj2 (id_compare_eq _ _) Ev), E1, E2 in H. simpl in H.
  apply Qle_alt. exact H.
Qed.


Lemma existsb_false {A : Type} (f : A -> bool) (l : list A) :
  (forall x, In x l -> f x = false) -> existsb f l = false.
Proof.
  intros H. destruct (existsb f l) eqn:E; [|reflexivity].
  apply existsb_exists in E. destruct E as [x [Hx Ex]].
  rewrite (H x Hx) in Ex. discriminate.
Qed.







(** C4. Sampling twice with the same bucket width is sampling once: the
    second pass returns what the first returned, and where the first
    raises there is no second. *)
Theorem sample_idempotent (float64 : Float64) (q : DataFrame) (every : Q) :
  (s <- _sample q every ;; _sample s every) = _sample q every.
Proof.
  destruct (_sample q every) as [s|e] eqn:E; [|reflexivity]. cbn [bind].
  destruct (sample_ok q every s E) as [[Hle ->]|[Hpos [Hc ->]]].
  - exact E.
  - rewrite sample_on by exact Hpos.
    rewrite existsb_false.
    + rewrite group_first_idem. reflexivity.
    + intros r Hr. apply Hc. revert Hr. apply subseq_In, group_first_subseq.
Qed.

(** ** Loading *)

Section LoadFacts.
Context {S : DataFrameSort}.

Lemma load_ok t :
  required_columns t = true ->
  _load t = Ok (df_sort (filter has_lon_lat (records t))).
Proof.
  unfold required_columns, _load. rewrite !andb_true_iff.
  intros [[[-> ->] ->] ->]. reflexivity.
Qed.

Lemma load_raise t :
  required_columns t = false ->
  exists msg, _load t = Raise (ValueError msg).
Proof.
  unfold required_columns, _load.
  destruct (has_column "timestep_time" t), (has_column "vehicle_id" t),
    (has_column "vehicle_x" t), (has_column "vehicle_y" t); simpl;
    try discriminate; intros _; eexists; reflexivity.
Qed.

Lemma load_inv t d :
  _load t = Ok d ->
  required_columns t = true /\ d = df_sort (filter has_lon_lat (records t)).
Proof.
  intros H. destruct (required_columns t) eqn:E.
  - rewrite (load_ok t E) in H. injection H as <-. auto.
  - destruct (load_raise t E) as [msg Hm]. congruence.
Qed.

Lemma load_rows t d :
  _load t = Ok d ->
  forall r, In r d <-> In r (records t) /\ has_lon_lat r = true.
Proof.
  intros H r. apply load_inv in H. destruct H as [_ ->].
  rewrite <- filter_In. split; apply Permutation_in.
  - symmetry. apply df_sort_perm.
  - apply df_sort_perm.
Qed.

Lemma load_is_sorted t d : _load t = Ok d -> StronglySorted row_le d.
Proof.
  intros H. apply load_inv in H. destruct H as [_ ->]. apply df_sort_sorted.
Qed.

Lemma init_inv path t td :
  __init__ path t = Ok td ->
  _load t = Ok (df td) /\
  series_min (map timestep_time (df td)) = Some (min_time td) /\
  series_max (map timestep_time (df td)) = Some (max_time td) /\
  row_count td = height (df td).
Proof.
  unfold __init__. destruct (_load t) as [d|]; simpl; [|discriminate].
  destruct (series_min (map timestep_time d)) as [lo|] eqn:Elo; simpl;
    [|discriminate].
  destruct (series_max (map timestep_time d)) as [hi|] eqn:Ehi; simpl;
    [|discriminate].
  intros [= <-]. simpl. auto.
Qed.
End LoadFacts.

Lemma sorted_pairs (d : DataFrame) :
  StronglySorted row_le d ->
  forall l1 r1 l2 r2 l3, d = l1 ++ r1 :: l2 ++ r2 :: l3 -> row_le r1 r2.
Proof.
  intros Hs l1 r1 l2 r2 l3 ->.
  apply StronglySorted_app_r in Hs.
  inversion Hs as [|? ? _ Hle]; subst.
  rewrite Forall_forall in Hle. apply Hle.
  apply in_or_app. right. left. reflexivity.
Qed.

Lemma row_le_lex r1 r2 :
  row_le r1 r2 <->
  id_compare (vehicle_id r1) (vehicle_id r2) = Lt \/
  (vehicle_id r1 = vehicle_id r2 /\
   time_compare (timestep_time r1) (timestep_time r2) <> Gt).
Proof.
  rewrite row_le_iff. unfold row_compare. fold id_compare time_compare.
  destruct (id_compare (vehicle_id r1) (vehicle_id r2)) eqn:E.
  - apply id_compare_eq in E. split; [auto|]. intros [H|[_ H]]; congruence.
  - split; [auto|]. discriminate.
  - split; [congruence|]. intros [H|[H _]]; [discriminate|].
    apply id_compare_eq in H. congruence.
Qed.

(** Whatever sort meets the contract of [DataFrame.sort], a loaded table
    holds exactly the rows of the file that have a longitude and a latitude,
    and is ascending by vehicle id and, for one vehicle, by time (nulls
    first): of two rows, the earlier one has the smaller id, or the same id
    and a time that is not later.  The order of rows that tie on both is
    whatever the sort makes it. *)
Theorem load_sorted (S : DataFrameSort) (t : CsvTable) (d : DataFrame) :
  _load t = Ok d ->
  Permutation (filter has_lon_lat (records t)) d /\
  StronglySorted row_le d /\
  forall l1 r1 l2 r2 l3, d = l1 ++ r1 :: l2 ++ r2 :: l3 ->
    id_compare (vehicle_id r1) (vehicle_id r2) = Lt \/
    (vehicle_id r1 = vehicle_id r2 /\
     time_compare (timestep_time r1) (timestep_time r2) <> Gt).
Proof.
  intros H. apply load_inv in H. destruct H as [_ ->].
  split; [apply df_sort_perm|].
  split; [apply df_sort_sorted|].
  intros l1 r1 l2 r2 l3 E. apply row_le_lex.
  eapply sorted_pairs; [apply df_sort_sorted | exact E].
Qed.

Lemma load_sorted_witness :
  Permutation (filter has_lon_lat (records unsorted_table))
    [ fcd 0 "v1" 10 50; fcd (3 # 2) "v1" 13 50; fcd 1 "v2" 20 60 ] /\
  StronglySorted row_le
    [ fcd 0 "v1" 10 50; fcd (3 # 2) "v1" 13 50; fcd 1 "v2" 20 60 ] /\
  forall l1 r1 l2 r2 l3,
    [ fcd 0 "v1" 10 50; fcd (3 # 2) "v1" 13 50; fcd 1 "v2" 20 60 ]
      = l1 ++ r1 :: l2 ++ r2 :: l3 ->
    id_compare (vehicle_id r1) (vehicle_id r2) = Lt \/
    (vehicle_id r1 = vehicle_id r2 /\
     time_compare (timestep_time r1) (timestep_time r2) <> Gt).
Proof.
  apply (load_sorted stable_sort unsorted_table). reflexivity.
Defined.

(** ** Column minimum and maximum *)

Lemma Qmin'_le a b : Qmin' a b <= a /\ Qmin' a b <= b.
Proof.
  unfold Qmin'. destruct (Qle_bool a b) eqn:E.
  - apply Qle_bool_iff in E. split; [apply Qle_refl | exact E].
  - split; [|apply Qle_refl]. apply Qlt_le_weak, Qnot_le_lt.
    intros H. apply Qle_bool_iff in H. congruence.
Qed.

Lemma Qmax'_ge a b : a <= Qmax' a b /\ b <= Qmax' a b.
Proof.
  unfold Qmax'. destruct (Qle_bool a b) eqn:E.
  - apply Qle_bool_iff in E. split; [exact E | apply Qle_refl].
  - split; [apply Qle_refl|]. apply Qlt_le_weak, Qnot_le_lt.
    intros H. apply Qle_bool_iff in H. congruence.
Qed.

Lemma series_fold_none f col :
  series_fold f col = None <-> forall v, ~ In (Some v) col.
Proof.
  induction col as [|[v|] col IH]; simpl.
  - split; auto.
  - destruct (series_fold f col); split; try discriminate.
    + intros H. exfalso. apply (H v). left. reflexivity.
    + intros H. exfalso. apply (H v). left. reflexivity.
  - rewrite IH. split; intros H v.
    + intros [E|Hin]; [discriminate | apply (H v Hin)].
    + intros Hin. apply (H v). right. exact Hin.
Qed.

Lemma series_min_le col lo :
  series_min col = Some lo -> forall v, In (Some v) col -> lo <= v.
Proof.
  unfold series_min. revert lo.
  induction col as [|[x|] col IH]; simpl; intros lo E v Hv; try contradiction.
  - destruct (series_fold Qmin' col) as [m|] eqn:Em; injection E as <-.
    + destruct (Qmin'_le x m) as [H1 H2]. destruct Hv as [[= <-]|Hv]; [exact H1|].
      eapply Qle_trans; [exact H2 | apply (IH m eq_refl v Hv)].
    + destruct Hv as [[= <-]|Hv]; [apply Qle_refl|].
      exfalso. apply (proj1 (series_fold_none _ _) Em v Hv).
  - destruct Hv as [E'|Hv]; [discriminate | apply (IH lo E v Hv)].
Qed.

Lemma series_max_ge col hi :
  series_max col = Some hi -> forall v, In (Some v) col -> v <= hi.
Proof.
  unfold series_max. revert hi.
  induction col as [|[x|] col IH]; simpl; intros hi E v Hv; try contradiction.
  - destruct (series_fold Qmax' col) as [m|] eqn:Em; injection E as <-.
    + destruct (Qmax'_ge x m) as [H1 H2]. destruct Hv as [[= <-]|Hv]; [exact H1|].
      eapply Qle_trans; [apply (IH m eq_refl v Hv) | exact H2].
    + destruct Hv as [[= <-]|Hv]; [apply Qle_refl|].
      exfalso. apply (proj1 (series_fold_none _ _) Em v Hv).
  - destruct Hv as [E'|Hv]; [discriminate | apply (IH hi E v Hv)].
Qed.

Lemma series_fold_some f col m :
  series_fold f col = Some m -> exists v, In (Some v) col.
Proof.
  intros E. destruct col as [|c col]; [discriminate|].
  revert c E. induction col as [|c' col IH]; intros c E.
  - destruct c as [v|]; simpl in E; [|discriminate]. exists v. left. reflexivity.
  - destruct c as [v|].
    + exists v. left. reflexivity.
    + simpl in E. destruct (IH c' E) as [v Hv]. exists v. right. exact Hv.
Qed.

Lemma has_column_iff name t : has_column name t = true <-> In name (columns t).
Proof.
  unfold has_column. destruct (in_dec string_dec name (columns t)); split;
    auto; discriminate.
Qed.

Lemma required_columns_iff t :
  required_columns t = true <->
  In "timestep_time"%string (columns t) /\ In "vehicle_id"%string (columns t) /\
  In "vehicle_x"%string (columns t) /\ In "vehicle_y"%string (columns t).
Proof.
  unfold required_columns. rewrite !andb_true_iff, !has_column_iff. tauto.
Qed.

Lemma init_raise_schema {S : DataFrameSort} path t e :
  _load t = Raise e -> __init__ path t = Raise e.
Proof. intros H. unfold __init__. rewrite H. reflexivity. Qed.

Lemma query_points_from_rows {float64 : Float64} d ts te bbox ids max_pts every pts hit st :
  query d ts te bbox ids max_pts every = Ok (pts, hit, st) ->
  forall p, In p pts -> exists r, In r d /\ point_of r = Ok p.
Proof.
  intros Hq p Hp. rewrite query_unfold in Hq.
  destruct (query_view d ts te bbox ids every) as [v|] eqn:Hv;
    simpl in Hq; [|discriminate].
  destruct (mapM point_of (fst (cap max_pts v))) as [ps|] eqn:Eps;
    simpl in Hq; [|discriminate].
  injection Hq as <- _ _.
  destruct (Forall2_In_r _ _ _ (mapM_Forall2 _ _ _ Eps) p Hp) as [r [Hr Er]].
  apply (subseq_In _ _ (cap_subseq max_pts v)) in Hr.
  destruct (query_view_rows _ _ _ _ _ _ _ Hv r Hr) as [Hd _].
  exists r. auto.
Qed.

Lemma trajectory_view_subseq d vid ts te :
  subseq (trajectory_view d vid ts te) (filter (is_vehicle vid) d).
Proof.
  unfold trajectory_view.
  assert (subseq (filter has_lon_lat (filter (is_vehicle vid) d))
            (filter (is_vehicle vid) d)) as H by apply subseq_filter.
  destruct ts, te; auto.
  eapply subseq_trans; [apply subseq_filter | exact H].
Qed.

Lemma trajectory_points_from_rows d vid ts te max_pts tr :
  trajectory d vid ts te max_pts = Ok tr ->
  forall p, In p (tr_points tr) ->
    exists r, In r d /\ vehicle_id r = Some vid /\ track_point_of r = Ok p.
Proof.
  intros H p Hp. rewrite trajectory_unfold in H. cbv zeta in H.
  destruct (mapM track_point_of _) as [ps|] eqn:E; simpl in H; [|discriminate].
  injection H as <-. simpl in Hp.
  destruct (Forall2_In_r _ _ _ (mapM_Forall2 _ _ _ E) p Hp) as [r [Hr Er]].
  apply (subseq_In _ _ (cap_subseq _ _)) in Hr.
  apply (subseq_In _ _ (trajectory_view_subseq _ _ _ _)) in Hr.
  apply filter_In in Hr. destruct Hr as [Hr Hv].
  exists r. repeat split; auto.
  unfold is_vehicle in Hv. destruct (vehicle_id r) as [s|]; [|discriminate].
  destruct (string_dec s vid); [congruence | discriminate].
Qed.

(** C9. Loading raises the schema error (a [ValueError]) when any of the
    four required columns is absent, and then no store is constructed, so no
    query can run.  With the four columns present loading succeeds; the
    table holds exactly the rows of the file that have both a longitude and
    a latitude, and every point a later [query] or [trajectory] returns
    comes from such a row. *)
Theorem load_schema_and_null_rows (S : DataFrameSort) (float64 : Float64)
  (path : string) (t : CsvTable) :
  (~ In "timestep_time"%string (columns t) \/
   ~ In "vehicle_id"%string (columns t) \/
   ~ In "vehicle_x"%string (columns t) \/
   ~ In "vehicle_y"%string (columns t) ->
   exists msg, _load t = Raise (ValueError msg) /\
               __init__ path t = Raise (ValueError msg)) /\
  (In "timestep_time"%string (columns t) ->
   In "vehicle_id"%string (columns t) ->
   In "vehicle_x"%string (columns t) ->
   In "vehicle_y"%string (columns t) ->
   exists d,
     _load t = Ok d /\
     (forall r, In r d <-> In r (records t) /\ has_lon_lat r = true) /\
     (forall ts te bbox ids max_pts every pts hit st,
         query d ts te bbox ids max_pts every = Ok (pts, hit, st) ->
         forall p, In p pts ->
           exists r, In r (records t) /\
                     vehicle_x r = Some (p_lon p) /\
                     vehicle_y r = Some (p_lat p)) /\
     (forall vid ts te max_pts tr,
         trajectory d vid ts te max_pts = Ok tr ->
         forall p, In p (tr_points tr) ->
           exists r, In r (records t) /\
                     vehicle_x r = Some (tp_lon p) /\
                     vehicle_y r = Some (tp_lat p))).
Proof.
  split.
  - intros Habs.
    assert (required_columns t = false) as E.
    { destruct (required_columns t) eqn:E; [|reflexivity].
      apply required_columns_iff in E. tauto. }
    destruct (load_raise t E) as [msg Hm]. exists msg.
    split; [exact Hm | apply init_raise_schema, Hm].
  - intros H1 H2 H3 H4.
    assert (required_columns t = true) as E
      by (apply required_columns_iff; tauto).
    pose proof (load_ok t E) as Hl.
    exists (df_sort (filter has_lon_lat (records t))).
    split; [exact Hl|]. split; [apply (load_rows t _ Hl)|]. split.
    + intros ts te bbox ids max_pts every pts hit st Hq p Hp.
      destruct (query_points_from_rows _ _ _ _ _ _ _ _ _ _ Hq p Hp)
        as [r [Hr Er]].
      apply (load_rows t _ Hl) in Hr.
      apply point_of_fields in Er. exists r. tauto.
    + intros vid ts te max_pts tr Ht p Hp.
      destruct (trajectory_points_from_rows _ _ _ _ _ _ Ht p Hp)
        as [r [Hr [_ Er]]].
      apply (load_rows t _ Hl) in Hr. exists r.
      unfold track_point_of in Er.
      destruct (timestep_time r), (vehicle_x r), (vehicle_y r);
        simpl in Er; try discriminate.
      injection Er as <-. simpl. tauto.
Qed.

Lemma load_schema_and_null_rows_witness :
  exists msg, @_load stable_sort no_latitude = Raise (ValueError msg) /\
              @__init__ stable_sort "fcd_geo.csv" no_latitude
                = Raise (ValueError msg).
Proof.
  apply (proj1 (load_schema_and_null_rows stable_sort exact_float64
                  "fcd_geo.csv" no_latitude)).
  right. right. right. simpl. intros [H|[H|[H|[]]]]; discriminate.
Defined.

(** C10. Constructing the store from a file in which no row has both a
    longitude and a latitude (or that has no row at all) fails, with the
    [TypeError] of [float(None)], although the four columns are there.  So a
    store that was constructed has at least one row, and its minimum time is
    not above its maximum time. *)
Theorem init_needs_a_row (S : DataFrameSort) (path : string) (t : CsvTable) :
  (In "timestep_time"%string (columns t) ->
   In "vehicle_id"%string (columns t) ->
   In "vehicle_x"%string (columns t) ->
   In "vehicle_y"%string (columns t) ->
   (forall r, In r (records t) -> has_lon_lat r = false) ->
   exists msg, __init__ path t = Raise (TypeError msg)) /\
  (forall td, __init__ path t = Ok td ->
     (1 <= row_count td)%Z /\
     row_count td = height (df td) /\
     series_min (map timestep_time (df td)) = Some (min_time td) /\
     series_max (map timestep_time (df td)) = Some (max_time td) /\
     min_time td <= max_time td).
Proof.
  split.
  - intros H1 H2 H3 H4 Hdrop.
    assert (required_columns t = true) as E
      by (apply required_columns_iff; tauto).
    assert (filter has_lon_lat (records t) = []) as Hnil.
    { induction (records t) as [|r l IH]; simpl; [reflexivity|].
      rewrite (Hdrop r) by (left; reflexivity).
      apply IH. intros x Hx. apply Hdrop. right. exact Hx. }
    unfold __init__. rewrite (load_ok t E), Hnil. simpl.
    pose proof (df_sort_perm []) as Hp. apply Permutation_nil in Hp.
    rewrite Hp. simpl. eexists. reflexivity.
  - intros td Hi. destruct (init_inv path t td Hi) as [_ [Hlo [Hhi Hrc]]].
    destruct (series_fold_some _ _ _ Hlo) as [v Hv].
    split; [|split; [exact Hrc|split; [exact Hlo|split; [exact Hhi|]]]].
    + rewrite Hrc. unfold height.
      destruct (df td); [simpl in Hv; contradiction | simpl; lia].
    + eapply Qle_trans.
      * apply (series_min_le _ _ Hlo v Hv).
      * apply (series_max_ge _ _ Hhi v Hv).
Qed.

Lemma init_needs_a_row_witness :
  exists msg, @__init__ stable_sort "fcd_geo.csv" empty_timesteps
                = Raise (TypeError msg).
Proof.
  apply (proj1 (init_needs_a_row stable_sort "fcd_geo.csv" empty_timesteps));
    simpl; auto 10.
  intros r [<-|[<-|[]]]; reflexivity.
Defined.

(** ** Trajectories of a loaded table *)

Lemma filter_all {A : Type} (f : A -> bool) (l : list A) :
  (forall x, In x l -> f x = true) -> filter f l = l.
Proof.
  induction l as [|x l IH]; simpl; intros H; [reflexivity|].
  rewrite (H x) by (left; reflexivity). f_equal. apply IH.
  intros y Hy. apply H. right. exact Hy.
Qed.

Lemma is_vehicle_iff vid r : is_vehicle vid r = true <-> vehicle_id r = Some vid.
Proof.
  unfold is_vehicle. destruct (vehicle_id r) as [s|].
  - destruct (string_dec s vid); split; congruence.
  - split; discriminate.
Qed.

Lemma track_point_of_fields r p :
  track_point_of r = Ok p ->
  timestep_time r = Some (tp_t p) /\ vehicle_x r = Some (tp_lon p) /\
  vehicle_y r = Some (tp_lat p).
Proof.
  unfold track_point_of.
  destruct (timestep_time r), (vehicle_x r), (vehicle_y r); simpl;
    try discriminate.
  intros [= <-]. simpl. tauto.
Qed.

Lemma track_points_ascending vid q ps :
  StronglySorted row_le q ->
  (forall r, In r q -> vehicle_id r = Some vid) ->
  mapM track_point_of q = Ok ps ->
  StronglySorted Qle (map tp_t ps).
Proof.
  intros Hs Hv E. apply mapM_Forall2 in E.
  induction E as [|r p q ps Erp F IH]; simpl; [constructor|].
  inversion Hs as [|? ? Hs' Hle]; subst.
  constructor.
  - apply IH; [exact Hs'|]. intros x Hx. apply Hv. right. exact Hx.
  - apply Forall_forall. intros t' Ht'. apply in_map_iff in Ht'.
    destruct Ht' as [p' [<- Hp']].
    destruct (Forall2_In_r _ _ _ F p' Hp') as [r' [Hr' Er']].
    rewrite Forall_forall in Hle.
    apply (row_le_same_vehicle r r').
    + apply Hle, Hr'.
    + rewrite (Hv r), (Hv r'); auto; [right; exact Hr' | left; reflexivity].
    + apply track_point_of_fields in Erp. tauto.
    + apply track_point_of_fields in Er'. tauto.
Qed.

Lemma trajectory_returns d vid ts te max_pts :
  StronglySorted row_le d ->
  (forall r, In r (trajectory_view d vid ts te) -> timestep_time r <> None) ->
  exists tr,
    trajectory d vid ts te max_pts = Ok tr /\
    mapM track_point_of (fst (cap max_pts (trajectory_view d vid ts te)))
      = Ok (tr_points tr) /\
    tr_truncated tr = snd (cap max_pts (trajectory_view d vid ts te)) /\
    StronglySorted Qle (map tp_t (tr_points tr)).
Proof.
  intros Hs Ht. set (v := trajectory_view d vid ts te) in *.
  assert (exists ps, mapM track_point_of (fst (cap max_pts v)) = Ok ps)
    as [ps Eps].
  { apply mapM_total, Forall_forall. intros r Hr.
    apply (subseq_In _ _ (cap_subseq _ _)) in Hr.
    pose proof (trajectory_view_lon_lat d vid ts te) as Hll.
    rewrite Forall_forall in Hll.
    destruct (has_lon_lat_float r (Hll r Hr)) as [x [y [Ex Ey]]].
    specialize (Ht r Hr). unfold track_point_of.
    destruct (timestep_time r) as [t0|]; [|congruence].
    rewrite Ex, Ey. simpl. eauto. }
  rewrite trajectory_unfold. cbv zeta. fold v. rewrite Eps. simpl.
  eexists. split; [reflexivity|]. simpl. repeat split.
  apply (track_points_ascending vid _ _) with (3 := Eps).
  - apply (subseq_StronglySorted _ _ d); [|exact Hs].
    eapply subseq_trans; [apply cap_subseq|].
    eapply subseq_trans; [apply trajectory_view_subseq | apply subseq_filter].
  - intros r Hr. apply (subseq_In _ _ (cap_subseq _ _)) in Hr.
    apply (subseq_In _ _ (trajectory_view_subseq _ _ _ _)) in Hr.
    apply filter_In in Hr. apply is_vehicle_iff. tauto.
Qed.

(** The time policy of [trajectory] on a constructed store.  The time
    filter is applied when both bounds are given and only then: with both
    the call returns the vehicle's rows inside the closed range; with one
    bound or none the call is the call without bounds.  That call returns
    every row of the vehicle, cut only by the cap, when each of these rows
    carries a time; the theorem after this one shows what happens when one
    does not.  Points come in ascending time order. *)
Theorem trajectory_time_policy (S : DataFrameSort) (path : string)
  (t : CsvTable) (td : TrafficData) (vid : string) :
  __init__ path t = Ok td ->
  let all := filter (is_vehicle vid) (df td) in
  (forall s e max_pts, exists tr,
      trajectory (df td) vid (Some s) (Some e) max_pts = Ok tr /\
      mapM track_point_of (fst (cap max_pts (_apply_time all s e)))
        = Ok (tr_points tr) /\
      tr_truncated tr = snd (cap max_pts (_apply_time all s e)) /\
      StronglySorted Qle (map tp_t (tr_points tr))) /\
  (forall ts te max_pts, ts = None \/ te = None ->
      trajectory (df td) vid ts te max_pts
        = trajectory (df td) vid None None max_pts) /\
  ((forall r, In r all -> timestep_time r <> None) ->
   (forall ts te max_pts, ts = None \/ te = None -> exists tr,
       trajectory (df td) vid ts te max_pts = Ok tr /\
       mapM track_point_of (fst (cap max_pts all)) = Ok (tr_points tr) /\
       tr_truncated tr = snd (cap max_pts all) /\
       StronglySorted Qle (map tp_t (tr_points tr))) /\
   (forall max_pts, (max_pts <= 0)%Z -> exists tr,
       trajectory (df td) vid None None max_pts = Ok tr /\
       mapM track_point_of all = Ok (tr_points tr) /\
       tr_truncated tr = false /\
       tr_pointCount tr = height all /\
       StronglySorted Qle (map tp_t (tr_points tr)))).
Proof.
  intros Hi all. destruct (init_inv path t td Hi) as [Hl _].
  pose proof (load_is_sorted t (df td) Hl) as Hs.
  assert (filter has_lon_lat all = all) as Hall.
  { apply filter_all. intros r Hr. apply filter_In in Hr.
    destruct Hr as [Hr _]. apply (load_rows t _ Hl) in Hr. tauto. }
  assert (forall ts te, trajectory_view (df td) vid ts te =
            match ts, te with
            | Some s, Some e => _apply_time all s e
            | _, _ => all
            end) as Hview.
  { intros ts te. unfold trajectory_view. fold all. rewrite Hall. reflexivity. }
  assert (forall ts te max_pts, ts = None \/ te = None ->
            trajectory (df td) vid ts te max_pts
              = trajectory (df td) vid None None max_pts) as Hoff.
  { intros ts te max_pts H. unfold trajectory.
    destruct ts, te; try reflexivity. destruct H; discriminate. }
  split; [|split; [exact Hoff|]].
  - intros s e max_pts.
    destruct (trajectory_returns (df td) vid (Some s) (Some e) max_pts Hs)
      as [tr Htr].
    + rewrite Hview. intros r Hr. apply filter_In in Hr.
      destruct Hr as [_ Hr]. apply in_time_iff in Hr.
      destruct Hr as [t0 [E _]]. congruence.
    + rewrite Hview in Htr. exists tr. exact Htr.
  - intros Htimes.
    assert (forall max_pts, exists tr,
       trajectory (df td) vid None None max_pts = Ok tr /\
       mapM track_point_of (fst (cap max_pts all)) = Ok (tr_points tr) /\
       tr_truncated tr = snd (cap max_pts all) /\
       StronglySorted Qle (map tp_t (tr_points tr))) as Hnone.
    { intros max_pts.
      destruct (trajectory_returns (df td) vid None None max_pts Hs)
        as [tr Htr].
      - rewrite Hview. exact Htimes.
      - rewrite Hview in Htr. exists tr. exact Htr. }
    split.
    + intros ts te max_pts H. rewrite (Hoff ts te max_pts H). apply Hnone.
    + intros max_pts Hle. destruct (Hnone max_pts) as [tr [E [Ep [Et Ho]]]].
      exists tr.
      assert (cap max_pts all = (all, false)) as Hc
        by (apply cap_off; lia).
      rewrite Hc in Ep, Et. simpl in Ep, Et.
      repeat split; auto.
      rewrite trajectory_unfold in E. cbv zeta in E.
      rewrite Hview, Hc in E. simpl in E. rewrite Ep in E. simpl in E.
      injection E as <-. simpl. unfold height.
      rewrite (mapM_length _ _ _ Ep). reflexivity.
Qed.

Lemma trajectory_time_policy_witness :
  exists tr,
    trajectory (df unsorted_store) "v1" None None 0 = Ok tr /\
    mapM track_point_of (filter (is_vehicle "v1") (df unsorted_store))
      = Ok (tr_points tr) /\
    tr_truncated tr = false /\
    tr_pointCount tr = height (filter (is_vehicle "v1") (df unsorted_store)) /\
    StronglySorted Qle (map tp_t (tr_points tr)).
Proof.
  refine (proj2 (proj2 (proj2
            (trajectory_time_policy stable_sort "fcd_geo.csv" unsorted_table
               unsorted_store "v1" eq_refl)) _) 0%Z _).
  - intros r Hr. simpl in Hr. destruct Hr as [<-|[<-|[]]]; discriminate.
  - lia.
Defined.

(** C8. A row with an empty time cell is kept by the loader, and the store
    is constructed.  On that store [trajectory] of the row's vehicle raises
    a [TypeError] (the [float(None)] of the point list) whenever a bound is
    missing: without bounds, with a start only, with an end only.  It does
    not return the rows of the vehicle.  With both bounds the same call
    returns, the time filter having dropped the row. *)
Theorem trajectory_raises_on_null_time (S : DataFrameSort) :
  exists td,
    __init__ "fcd_geo.csv" null_time_table = Ok td /\
    Permutation (records null_time_table) (df td) /\
    (exists msg,
        trajectory (df td) "v1" None None 0 = Raise (TypeError msg)) /\
    (exists msg,
        trajectory (df td) "v1" (Some 0) None 0 = Raise (TypeError msg)) /\
    (exists msg,
        trajectory (df td) "v1" None (Some 10) 0 = Raise (TypeError msg)) /\
    trajectory (df td) "v1" (Some 0) (Some 10) 0 =
      Ok {| tr_vehicleId := "v1"; tr_truncated := false; tr_pointCount := 1;
            tr_coordinates := [ (10, 50) ];
            tr_points := [ {| tp_t := 0; tp_lon := 10; tp_lat := 50 |} ] |}.
Proof.
  assert (exists d, _load null_time_table = Ok d /\
                    Permutation (records null_time_table) d /\
                    (d = records null_time_table \/
                     d = rev (records null_time_table))) as [d [Hl [Hp Hd]]].
  { exists (df_sort (filter has_lon_lat (records null_time_table))).
    split; [apply load_ok; reflexivity|].
    pose proof (df_sort_perm (filter has_lon_lat (records null_time_table)))
      as Hp.
    split; [exact Hp|].
    apply Permutation_length_2_inv in Hp. exact Hp. }
  unfold __init__. rewrite Hl. cbn [bind].
  destruct Hd as [E|E]; rewrite E in *; eexists;
    (split; [reflexivity|]);
    (split; [exact Hp|]);
    repeat split; try (eexists; reflexivity); reflexivity.
Qed.

(** ** A sort that keeps ties would give the stable table *)

Lemma same_sort_key_trans r x y :
  same_sort_key r x = true -> same_sort_key r y = true ->
  row_compare x y = Eq.
Proof.
  unfold same_sort_key. intros Hx Hy.
  destruct (row_compare r x) eqn:Ex; try discriminate.
  destruct (row_compare r y) eqn:Ey; try discriminate.
  rewrite <- (cmp_eq_l _ row_compare_total r x y Ex). exact Ey.
Qed.

Lemma insert_row_ties r x q :
  filter (same_sort_key r) (insert_row x q) = filter (same_sort_key r) (x :: q).
Proof.
  induction q as [|y q IH]; [reflexivity|].
  cbn [insert_row]. destruct (row_leb x y) eqn:E; [reflexivity|].
  cbn [filter] in *. rewrite IH.
  destruct (same_sort_key r x) eqn:Ex, (same_sort_key r y) eqn:Ey;
    try reflexivity.
  exfalso. pose proof (same_sort_key_trans r x y Ex Ey) as H.
  unfold row_leb in E. rewrite H in E. discriminate.
Qed.

Lemma insertion_sort_ties r q :
  filter (same_sort_key r) (insertion_sort q) = filter (same_sort_key r) q.
Proof.
  induction q as [|x q IH]; [reflexivity|].
  cbn [insertion_sort fold_right]. fold (insertion_sort q).
  rewrite insert_row_ties. cbn [filter]. rewrite IH. reflexivity.
Qed.

(** With the sort that keeps tied rows in input order, the loaded table does
    keep the file order of rows that tie on (vehicle id, time). *)
Lemma stable_load_keeps_tie_order (t : CsvTable) (d : DataFrame) :
  @_load stable_sort t = Ok d ->
  keeps_tie_order (filter has_lon_lat (records t)) d.
Proof.
  intros H. apply (@load_inv stable_sort) in H. destruct H as [_ ->].
  intros r. apply insertion_sort_ties.
Qed.

(** * Further properties of the store *)

(** ** Sorted id lists *)

Definition str_le (a b : string) : Prop := String.leb a b = true.

Lemma str_le_iff a b : str_le a b <-> String.compare a b <> Gt.
Proof.
  unfold str_le, String.leb. destruct (String.compare a b); split; congruence.
Qed.

Lemma str_le_trans a b c : str_le a b -> str_le b c -> str_le a c.
Proof.
  rewrite !str_le_iff. apply (cmp_le_trans _ string_compare_total).
Qed.

Lemma str_leb_false a b : String.leb a b = false -> str_le b a.
Proof.
  unfold str_le, String.leb. intros E.
  destruct (String.compare a b) eqn:C; try discriminate.
  rewrite (cmp_gt_flip _ string_compare_total a b C). reflexivity.
Qed.

Lemma insert_str_perm s l : Permutation (s :: l) (insert_str s l).
Proof.
  induction l as [|x l IH]; simpl; [reflexivity|].
  destruct (String.leb s x); [reflexivity|].
  rewrite perm_swap. apply perm_skip, IH.
Qed.

Lemma sorted_perm l : Permutation l (sorted l).
Proof.
  induction l as [|x l IH]; simpl; [reflexivity|].
  rewrite <- insert_str_perm. apply perm_skip, IH.
Qed.

Lemma insert_str_sorted s l :
  StronglySorted str_le l -> StronglySorted str_le (insert_str s l).
Proof.
  induction 1 as [|x l Hl IH Hx]; simpl.
  - repeat constructor.
  - destruct (String.leb s x) eqn:E.
    + constructor; [constructor; assumption|].
      constructor; [exact E|].
      eapply Forall_impl; [|exact Hx].
      intros y Hy. eapply str_le_trans; eassumption.
    + constructor; [exact IH|].
      apply (Permutation_Forall (insert_str_perm s l)).
      constructor; [apply str_leb_false, E | exact Hx].
Qed.

Lemma sorted_ascending l : StronglySorted str_le (sorted l).
Proof.
  induction l as [|x l IH]; simpl; [constructor|].
  apply insert_str_sorted, IH.
Qed.

Lemma ascending_unique l1 l2 :
  StronglySorted str_le l1 -> StronglySorted str_le l2 ->
  Permutation l1 l2 -> l1 = l2.
Proof.
  intros H1. revert l2.
  induction H1 as [|x l1 Hs IH Hx]; intros l2 H2 P.
  - apply Permutation_nil in P. congruence.
  - destruct l2 as [|y l2].
    + symmetry in P. apply Permutation_nil in P. discriminate.
    + inversion H2 as [|? ? Hs2 Hy]; subst.
      assert (x = y) as ->.
      { rewrite Forall_forall in Hx, Hy.
        assert (In x (y :: l2)) as Ix
          by (apply (Permutation_in _ P); left; reflexivity).
        assert (In y (x :: l1)) as Iy
          by (apply (Permutation_in _ (Permutation_sym P)); left; reflexivity).
        destruct Ix as [->|Ix]; [reflexivity|].
        destruct Iy as [->|Iy]; [reflexivity|].
        apply String.leb_antisym; [apply Hx, Iy | apply Hy, Ix]. }
      f_equal. apply IH; [exact Hs2|].
      apply Permutation_cons_inv in P. exact P.
Qed.

Lemma sorted_of_permutation l1 l2 :
  Permutation l1 l2 -> sorted l1 = sorted l2.
Proof.
  intros P. apply ascending_unique; try apply sorted_ascending.
  rewrite <- !sorted_perm. exact P.
Qed.

Lemma unique_same_elements l1 l2 :
  (forall i, In i l1 <-> In i l2) -> Permutation (unique l1) (unique l2).
Proof.
  intros H. unfold unique.
  apply NoDup_Permutation; try apply NoDup_nodup.
  intros i. rewrite !nodup_In. apply H.
Qed.

Lemma vehicle_ids_hit_eq v :
  vehicle_ids_hit v = sorted (map str (unique (map vehicle_id v))).
Proof.
  unfold vehicle_ids_hit. destruct (0 <? height v)%Z eqn:E; [reflexivity|].
  apply Z.ltb_ge in E. unfold height in E.
  destruct v; [reflexivity | simpl in E; lia].
Qed.

Lemma firstn_ascending {A : Type} (R : A -> A -> Prop) n (l : list A) :
  StronglySorted R l -> StronglySorted R (firstn n l).
Proof. apply subseq_StronglySorted, subseq_firstn. Qed.

Lemma apply_bbox_keeps q bbox q' r :
  _apply_bbox q bbox = Ok q' ->
  In r q ->
  (forall w s e n, bbox = Some [w; s; e; n] -> in_bbox w s e n r = true) ->
  In r q'.
Proof.
  destruct bbox as [l|]; simpl.
  - destruct l as [|w [|s [|e [|n [|]]]]]; try discriminate.
    intros [= <-] Hr Hb. apply filter_In. split; [exact Hr|].
    apply (Hb w s e n eq_refl).
  - intros [= <-] Hr _. exact Hr.
Qed.

Lemma apply_bbox_cases q bbox :
  (bbox_arity_ok bbox = true /\ exists q', _apply_bbox q bbox = Ok q') \/
  (bbox_arity_ok bbox = false /\
   exists msg, _apply_bbox q bbox = Raise (ValueError msg)).
Proof.
  destruct (bbox_arity_ok bbox) eqn:E.
  - left. split; [reflexivity|].
    destruct (apply_bbox_ok q bbox E) as [q' [H _]]. eauto.
  - right. split; [reflexivity|]. apply apply_bbox_raise, E.
Qed.

Lemma firstn_all_le {A : Type} (n : nat) (l : list A) :
  (length l <= n)%nat -> firstn n l = l.
Proof.
  revert n. induction l as [|x l IH]; intros [|n]; simpl; intros H;
    try reflexivity; try lia.
  f_equal. apply IH. lia.
Qed.

(** X1. [vehicles] returns an ascending list of at most [max(0, limit)]
    ids; each is the id of a row of the table inside the time range and the
    box; and when [limit] is at least the number of distinct ids of the
    table, every row inside the range and the box has its id listed. *)
Theorem vehicles_listing (d : DataFrame) (ts te : Q) (bbox : option (list Q))
  (limit : Z) (ids : list string) :
  TrafficData_vehicles d ts te bbox limit = Ok ids ->
  StronglySorted str_le ids /\
  (Z.of_nat (length ids) <= Z.max 0 limit)%Z /\
  (forall s, In s ids ->
     exists r, In r d /\ str (vehicle_id r) = s /\ in_time ts te r = true /\
       forall w s0 e n, bbox = Some [w; s0; e; n] -> in_bbox w s0 e n r = true) /\
  ((n_unique (map vehicle_id d) <= limit)%Z ->
   forall r, In r d -> in_time ts te r = true ->
     (forall w s0 e n, bbox = Some [w; s0; e; n] -> in_bbox w s0 e n r = true) ->
     In (str (vehicle_id r)) ids).
Proof.
  unfold TrafficData_vehicles.
  destruct (_apply_bbox (_apply_time d ts te) bbox) as [q|] eqn:Eb;
    simpl; [|discriminate].
  intros [= <-].
  set (all := sorted (map str (unique (map vehicle_id q)))).
  assert (forall s, In s all <-> exists r, In r q /\ str (vehicle_id r) = s)
    as Hall.
  { intros s. unfold all.
    split.
    - intros Hs. apply (Permutation_in _ (Permutation_sym (sorted_perm _))) in Hs.
      apply in_map_iff in Hs. destruct Hs as [i [<- Hi]].
      apply nodup_In, in_map_iff in Hi. destruct Hi as [r [<- Hr]]. eauto.
    - intros [r [Hr <-]]. apply (Permutation_in _ (sorted_perm _)).
      apply in_map, nodup_In, in_map, Hr. }
  assert (subseq q d) as Hqd.
  { destruct (apply_bbox_cases (_apply_time d ts te) bbox)
      as [[Hok _]|[_ [msg Hm]]]; [|congruence].
    destruct (apply_bbox_ok (_apply_time d ts te) bbox Hok) as [q' [Hq' Hs]].
    rewrite Eb in Hq'. injection Hq' as <-.
    eapply subseq_trans; [exact Hs | apply subseq_filter]. }
  split; [apply firstn_ascending, sorted_ascending|].
  split; [rewrite length_firstn; lia|].
  split.
  - intros s Hs. apply (subseq_In _ _ (subseq_firstn _ _)) in Hs.
    apply Hall in Hs. destruct Hs as [r [Hr Es]].
    destruct (apply_bbox_rows _ _ _ Eb r Hr) as [Hr' Hb].
    apply filter_In in Hr'. exists r. tauto.
  - intros Hlim r Hr Ht Hb.
    rewrite firstn_all_le.
    + apply Hall. exists r. split; [|reflexivity].
      apply (apply_bbox_keeps _ _ _ _ Eb); [|exact Hb].
      apply filter_In. auto.
    + unfold all. rewrite sorted_length, length_map.
      pose proof (n_unique_subseq q d Hqd) as Hn.
      unfold n_unique in Hn, Hlim. lia.
Qed.

Lemma vehicles_listing_witness :
  StronglySorted str_le [ "v1"%string ] /\
  (Z.of_nat (length [ "v1"%string ]) <= Z.max 0 1)%Z /\
  (forall s, In s [ "v1"%string ] ->
     exists r, In r scenario_b /\ str (vehicle_id r) = s /\
       in_time 0 10 r = true /\
       forall w s0 e n, @None (list Q) = Some [w; s0; e; n] ->
                        in_bbox w s0 e n r = true) /\
  ((n_unique (map vehicle_id scenario_b) <= 1)%Z ->
   forall r, In r scenario_b -> in_time 0 10 r = true ->
     (forall w s0 e n, @None (list Q) = Some [w; s0; e; n] ->
                       in_bbox w s0 e n r = true) ->
     In (str (vehicle_id r)) [ "v1"%string ]).
Proof.
  apply (vehicles_listing scenario_b 0 10 None 1). reflexivity.
Defined.





(** ** Sampling and the vehicles of a view *)

Lemma find_some_in {A : Type} (p : A -> bool) (l : list A) (x : A) :
  In x l -> p x = true -> exists y, find p l = Some y.
Proof.
  induction l as [|a l IH]; simpl; [contradiction|].
  intros [->|Hx] Hp.
  - rewrite Hp. eauto.
  - destruct (p a); eauto.
Qed.

Lemma sample_same_vehicles {float64 : Float64} q every s i :
  _sample q every = Ok s ->
  In i (map vehicle_id s) <-> In i (map vehicle_id q).
Proof.
  intros Hs. split.
  - apply subseq_In, subseq_map, (sample_subseq _ _ _ Hs).
  - destruct (sample_ok q every s Hs) as [[_ ->]|[_ [_ ->]]]; [auto|].
    intros Hi. apply in_map_iff in Hi. destruct Hi as [r [<- Hr]].
    set (key := key_of every).
    assert (has_key key (key r) r = true) as Hk
      by (apply has_key_true; reflexivity).
    destruct (find_some_in _ _ _ Hr Hk) as [r' Hf].
    rewrite <- (group_first_find key [] q (key r)) in Hf by (simpl; tauto).
    apply find_some in Hf. destruct Hf as [Hin Hk'].
    apply has_key_true in Hk'. apply in_map_iff. exists r'.
    split; [|exact Hin]. unfold key, key_of in Hk'. congruence.
Qed.

Lemma sample_same_hit {float64 : Float64} q every s :
  _sample q every = Ok s -> vehicle_ids_hit s = vehicle_ids_hit q.
Proof.
  intros Hs. rewrite !vehicle_ids_hit_eq.
  apply sorted_of_permutation, Permutation_map, unique_same_elements.
  intros i. apply (sample_same_vehicles _ _ _ _ Hs).
Qed.

(** X3. Sampling never loses a vehicle: the view a sampler returns has the
    same distinct vehicle ids as the view it was taken from.  So the id list
    [query] returns and the [vehicles] statistic do not depend on the
    sampling width, nor on the row limit. *)
Theorem sampling_keeps_vehicles (float64 : Float64) :
  (forall q every s,
      _sample q every = Ok s -> vehicle_ids_hit s = vehicle_ids_hit q) /\
  (forall q every s,
      _sample q every = Ok s ->
      n_unique (map vehicle_id s) = n_unique (map vehicle_id q)) /\
  (forall d ts te bbox ids max_pts every max_pts' every' pts hit st pts' hit' st',
      query d ts te bbox ids max_pts every = Ok (pts, hit, st) ->
      query d ts te bbox ids max_pts' every' = Ok (pts', hit', st') ->
      hit = hit' /\ vehicles st = vehicles st').
Proof.
  split; [intros q every s; apply sample_same_hit|]. split.
  - intros q every s Hs.
    rewrite <- !vehicle_ids_hit_count, (sample_same_hit _ _ _ Hs). reflexivity.
  - intros d ts te bbox ids max_pts every max_pts' every' pts hit st
      pts' hit' st' H H'.
    rewrite query_unfold in H, H'. unfold query_view in H, H'.
    destruct (_apply_bbox (_apply_time d ts te) bbox) as [q1|];
      cbn [bind] in H, H'; [|discriminate].
    destruct (_sample _ every) as [v|] eqn:Ev; cbn [bind] in H;
      [|discriminate].
    destruct (_sample _ every') as [v'|] eqn:Ev'; cbn [bind] in H';
      [|discriminate].
    cbv zeta in H, H'.
    destruct (mapM point_of _) as [ps|] in H; simpl in H; [|discriminate].
    destruct (mapM point_of _) as [ps'|] in H'; simpl in H'; [|discriminate].
    injection H as _ <- <-. injection H' as _ <- <-. simpl.
    rewrite (sample_same_hit _ _ _ Ev), (sample_same_hit _ _ _ Ev'). auto.
Qed.

Lemma sampling_keeps_vehicles_witness :
  [ "v1"%string ] = [ "v1"%string ] /\ 1%Z = 1%Z.
Proof.
  apply (proj2 (proj2 (sampling_keeps_vehicles exact_float64))
           scenario_a 0 2 None None 0%Z 1 1%Z 0
           [ {| p_t := 0; p_vehicleId := "v1"; p_lon := 10; p_lat := 50 |};
             {| p_t := 1; p_vehicleId := "v1"; p_lon := 12; p_lat := 50 |} ]
           [ "v1"%string ]
           {| rows := 2; vehicles := 1; truncated := false;
              sample_every := 1; max_points := 0 |}
           [ {| p_t := 0; p_vehicleId := "v1"; p_lon := 10; p_lat := 50 |} ]
           [ "v1"%string ]
           {| rows := 1; vehicles := 1; truncated := true;
              sample_every := 0; max_points := 1 |});
    reflexivity.
Defined.

(** ** Composition of the filters *)

Lemma filter_comm {A : Type} (f g : A -> bool) (l : list A) :
  filter f (filter g l) = filter g (filter f l).
Proof.
  induction l as [|x l IH]; simpl; [reflexivity|].
  destruct (g x) eqn:Eg, (f x) eqn:Ef; simpl; rewrite ?Eg, ?Ef, IH; reflexivity.
Qed.

Lemma filter_both {A : Type} (f g : A -> bool) (l : list A) :
  filter f (filter g l) = filter (fun x => g x && f x) l.
Proof.
  induction l as [|x l IH]; simpl; [reflexivity|].
  destruct (g x) eqn:Eg; simpl; [|exact IH].
  destruct (f x); rewrite IH; reflexivity.
Qed.

Lemma apply_ids_as_filter (ids : option (list string)) :
  exists f, forall l, _apply_ids l ids = filter f l.
Proof.
  destruct ids as [[|i l]|].
  - exists (fun _ => true). intros l. simpl. symmetry.
    apply filter_all. reflexivity.
  - exists (is_in (i :: l)). reflexivity.
  - exists (fun _ => true). intros l. simpl. symmetry.
    apply filter_all. reflexivity.
Qed.

Lemma apply_bbox_as_filter bbox :
  bbox_arity_ok bbox = true ->
  exists f, forall l, _apply_bbox l bbox = Ok (filter f l).
Proof.
  destruct bbox as [l|]; simpl.
  - destruct l as [|w [|s [|e [|n [|]]]]]; try discriminate. intros _.
    exists (in_bbox w s e n). reflexivity.
  - intros _. exists (fun _ => true). intros l. f_equal. symmetry.
    apply filter_all. reflexivity.
Qed.

(** X4. The three filters commute: the time filter, the id filter and the
    box filter give the same rows in whatever order they are applied, a box
    of the wrong arity raising in either order. *)
Theorem filters_commute (q : DataFrame) (ts te : Q)
  (bbox : option (list Q)) (ids : option (list string)) :
  _apply_ids (_apply_time q ts te) ids = _apply_time (_apply_ids q ids) ts te /\
  _apply_bbox (_apply_time q ts te) bbox =
    (q' <- _apply_bbox q bbox ;; Ok (_apply_time q' ts te)) /\
  _apply_bbox (_apply_ids q ids) bbox =
    (q' <- _apply_bbox q bbox ;; Ok (_apply_ids q' ids)).
Proof.
  destruct (apply_ids_as_filter ids) as [fi Hi].
  split; [|split].
  - rewrite !Hi. unfold _apply_time. apply filter_comm.
  - destruct (bbox_arity_ok bbox) eqn:E.
    + destruct (apply_bbox_as_filter bbox E) as [fb Hb].
      rewrite !Hb. simpl. unfold _apply_time. rewrite filter_comm. reflexivity.
    + destruct (apply_bbox_raise (_apply_time q ts te) bbox E) as [m Hm].
      destruct bbox as [l|]; [|discriminate].
      destruct l as [|w [|s [|e [|n [|]]]]]; try discriminate; reflexivity.
  - destruct (bbox_arity_ok bbox) eqn:E.
    + destruct (apply_bbox_as_filter bbox E) as [fb Hb].
      rewrite !Hb. simpl. rewrite !Hi, filter_comm. reflexivity.
    + destruct bbox as [l|]; [|discriminate].
      destruct l as [|w [|s [|e [|n [|]]]]]; try discriminate; reflexivity.
Qed.

Lemma Qle_bool_max a c t :
  Qle_bool (Qmax' a c) t = Qle_bool a t && Qle_bool c t.
Proof.
  unfold Qmax'. destruct (Qle_bool a c) eqn:E.
  - destruct (Qle_bool c t) eqn:Ec; [|symmetry; apply andb_false_r].
    rewrite andb_true_r. symmetry. apply Qle_bool_iff.
    apply Qle_bool_iff in E, Ec. eapply Qle_trans; eassumption.
  - destruct (Qle_bool a t) eqn:Ea; [|reflexivity]. simpl. symmetry.
    apply Qle_bool_iff. apply Qle_bool_iff in Ea.
    eapply Qle_trans; [|exact Ea]. apply Qlt_le_weak, Qnot_le_lt.
    intros H. apply Qle_bool_iff in H. congruence.
Qed.

Lemma Qle_bool_min t b d :
  Qle_bool t (Qmin' b d) = Qle_bool t b && Qle_bool t d.
Proof.
  unfold Qmin'. destruct (Qle_bool b d) eqn:E.
  - destruct (Qle_bool t b) eqn:Eb; [|reflexivity]. simpl. symmetry.
    apply Qle_bool_iff. apply Qle_bool_iff in E, Eb.
    eapply Qle_trans; eassumption.
  - destruct (Qle_bool t d) eqn:Ed; [|symmetry; apply andb_false_r].
    rewrite andb_true_r. symmetry. apply Qle_bool_iff.
    apply Qle_bool_iff in Ed. eapply Qle_trans; [exact Ed|].
    apply Qlt_le_weak, Qnot_le_lt.
    intros H. apply Qle_bool_iff in H. congruence.
Qed.

(** X5. Filtering by one time range and then by another is filtering once
    by their intersection, from the later start to the earlier end; in
    particular the time filter is idempotent. *)
Theorem time_ranges_intersect (q : DataFrame) (a b c d : Q) :
  _apply_time (_apply_time q a b) c d
    = _apply_time q (Qmax' a c) (Qmin' b d) /\
  _apply_time (_apply_time q a b) a b = _apply_time q a b.
Proof.
  assert (forall a b c d,
            _apply_time (_apply_time q a b) c d
              = _apply_time q (Qmax' a c) (Qmin' b d)) as H.
  { clear. intros a b c d. unfold _apply_time. rewrite filter_both.
    apply filter_ext. intros r. unfold in_time, cell_ge, cell_le.
    destruct (timestep_time r) as [t|]; [|reflexivity].
    rewrite Qle_bool_max, Qle_bool_min.
    destruct (Qle_bool a t), (Qle_bool t b), (Qle_bool c t), (Qle_bool t d);
      reflexivity. }
  split; [apply H|].
  unfold _apply_time. rewrite filter_both. apply filter_ext.
  intros r. destruct (in_time a b r); reflexivity.
Qed.

(** ** The summary statistics of a store *)

Definition has_time (r : row) : bool := is_not_null (timestep_time r).

Lemma series_fold_in f col m :
  (forall a b, f a b = a \/ f a b = b) ->
  series_fold f col = Some m -> In (Some m) col.
Proof.
  intros Hf. revert m.
  induction col as [|[v|] col IH]; simpl; intros m E; [discriminate| |auto].
  destruct (series_fold f col) as [m'|]; injection E as <-.
  - destruct (Hf v m') as [->| ->]; [left; reflexivity | right; auto].
  - left. reflexivity.
Qed.

Lemma Qmin'_cases a b : Qmin' a b = a \/ Qmin' a b = b.
Proof. unfold Qmin'. destruct (Qle_bool a b); auto. Qed.

Lemma Qmax'_cases a b : Qmax' a b = a \/ Qmax' a b = b.
Proof. unfold Qmax'. destruct (Qle_bool a b); auto. Qed.

Lemma unique_length_le ids : (length (unique ids) <= length ids)%nat.
Proof.
  unfold unique. apply NoDup_incl_length; [apply NoDup_nodup|].
  intros i Hi. apply nodup_In in Hi. exact Hi.
Qed.

Lemma unique_nonempty i ids : unique (i :: ids) <> [].
Proof.
  intros E. assert (In i (unique (i :: ids))) as H
    by (apply nodup_In; left; reflexivity).
  rewrite E in H. contradiction.
Qed.

Section StoreFacts.
Context {S : DataFrameSort}.

Lemma init_fields path t td :
  __init__ path t = Ok td ->
  csv_path td = path /\ vehicle_count td = n_unique (map vehicle_id (df td)).
Proof.
  unfold __init__. destruct (_load t) as [d|]; simpl; [|discriminate].
  destruct (float (series_min _)); simpl; [|discriminate].
  destruct (float (series_max _)); simpl; [|discriminate].
  intros [= <-]. simpl. auto.
Qed.

Lemma init_time_bounds path t td r tm :
  __init__ path t = Ok td ->
  In r (df td) -> timestep_time r = Some tm ->
  min_time td <= tm /\ tm <= max_time td.
Proof.
  intros Hi Hr Et. destruct (init_inv path t td Hi) as [_ [Hlo [Hhi _]]].
  assert (In (Some tm) (map timestep_time (df td))) as Hin
    by (rewrite <- Et; apply in_map, Hr).
  split; [apply (series_min_le _ _ Hlo tm Hin) | apply (series_max_ge _ _ Hhi tm Hin)].
Qed.

Lemma init_lon_lat path t td r :
  __init__ path t = Ok td -> In r (df td) -> has_lon_lat r = true.
Proof.
  intros Hi Hr. destruct (init_inv path t td Hi) as [Hl _].
  apply (load_rows t _ Hl) in Hr. tauto.
Qed.
End StoreFacts.

(** X6. The statistics of a constructed store bound its table: every time
    of the table lies between [min_time] and [max_time], both are times of
    rows of the table, the vehicle count is the number of distinct ids and
    lies between 1 and the row count, and [meta] reports these values with
    the path the store was built from. *)
Theorem init_stats_bounds (S : DataFrameSort) (path : string) (t : CsvTable)
  (td : TrafficData) :
  __init__ path t = Ok td ->
  (forall r tm, In r (df td) -> timestep_time r = Some tm ->
                min_time td <= tm /\ tm <= max_time td) /\
  (exists r, In r (df td) /\ timestep_time r = Some (min_time td)) /\
  (exists r, In r (df td) /\ timestep_time r = Some (max_time td)) /\
  (1 <= vehicle_count td /\ vehicle_count td <= row_count td)%Z /\
  meta td = {| m_csvPath := path;
               m_minTime := min_time td;
               m_maxTime := max_time td;
               m_rowCount := height (df td);
               m_vehicleCount := n_unique (map vehicle_id (df td)) |}.
Proof.
  intros Hi. destruct (init_inv path t td Hi) as [_ [Hlo [Hhi Hrc]]].
  destruct (init_fields path t td Hi) as [Hp Hvc].
  split; [intros r tm; apply (init_time_bounds path t td r tm Hi)|].
  split.
  { apply (series_fold_in _ _ _ Qmin'_cases) in Hlo.
    apply in_map_iff in Hlo. destruct Hlo as [r [E Hr]]. eauto. }
  split.
  { apply (series_fold_in _ _ _ Qmax'_cases) in Hhi.
    apply in_map_iff in Hhi. destruct Hhi as [r [E Hr]]. eauto. }
  split.
  - rewrite Hvc, Hrc. unfold n_unique, height.
    pose proof (unique_length_le (map vehicle_id (df td))) as Hle.
    rewrite length_map in Hle.
    destruct (series_fold_some _ _ _ Hlo) as [v Hv].
    destruct (df td) as [|r d]; [simpl in Hv; contradiction|].
    pose proof (unique_nonempty (vehicle_id r) (map vehicle_id d)) as Hne.
    simpl map in *. destruct (unique (vehicle_id r :: map vehicle_id d));
      [congruence | simpl in *; lia].
  - unfold meta. rewrite Hp, Hvc, Hrc. reflexivity.
Qed.

Lemma init_stats_bounds_witness :
  (forall r tm, In r (df unsorted_store) -> timestep_time r = Some tm ->
                min_time unsorted_store <= tm /\ tm <= max_time unsorted_store) /\
  (exists r, In r (df unsorted_store) /\
             timestep_time r = Some (min_time unsorted_store)) /\
  (exists r, In r (df unsorted_store) /\
             timestep_time r = Some (max_time unsorted_store)) /\
  (1 <= vehicle_count unsorted_store /\
   vehicle_count unsorted_store <= row_count unsorted_store)%Z /\
  meta unsorted_store =
    {| m_csvPath := "fcd_geo.csv";
       m_minTime := min_time unsorted_store;
       m_maxTime := max_time unsorted_store;
       m_rowCount := height (df unsorted_store);
       m_vehicleCount := n_unique (map vehicle_id (df unsorted_store)) |}.
Proof.
  apply (init_stats_bounds stable_sort "fcd_geo.csv" unsorted_table).
  reflexivity.
Defined.

(** X7. A query over the whole time span of a store, [min_time] to
    [max_time], with no box, no ids, no sampling and no limit, returns every
    row of the table that carries a time, untruncated; when every row
    carries one, its statistics repeat the row count and the vehicle count
    of [meta]. *)
Theorem full_span_query (S : DataFrameSort) (float64 : Float64)
  (path : string) (t : CsvTable) (td : TrafficData) :
  __init__ path t = Ok td ->
  let timed := filter has_time (df td) in
  exists pts,
    mapM point_of timed = Ok pts /\
    query (df td) (min_time td) (max_time td) None None 0 0 =
      Ok (pts, vehicle_ids_hit timed,
          {| rows := height timed;
             vehicles := n_unique (map vehicle_id timed);
             truncated := false;
             sample_every := 0;
             max_points := 0 |}) /\
    ((forall r, In r (df td) -> timestep_time r <> None) ->
     timed = df td /\ height timed = row_count td /\
     n_unique (map vehicle_id timed) = vehicle_count td).
Proof.
  intros Hi timed.
  assert (_apply_time (df td) (min_time td) (max_time td) = timed) as Ht.
  { unfold _apply_time, timed. apply filter_ext_in. intros r Hr.
    unfold has_time. destruct (timestep_time r) as [tm|] eqn:E.
    - destruct (init_time_bounds path t td r tm Hi Hr E) as [H1 H2].
      apply in_time_iff. eauto.
    - unfold in_time, cell_ge. rewrite E. reflexivity. }
  assert (filter has_lon_lat timed = timed) as Hll.
  { apply filter_all. intros r Hr. apply filter_In in Hr.
    apply (init_lon_lat path t td r Hi). tauto. }
  assert (query_view (df td) (min_time td) (max_time td) None None 0 = Ok timed)
    as Hv.
  { unfold query_view. simpl. rewrite Ht, Hll. reflexivity. }
  destruct (query_view_points _ _ _ _ _ _ _ timed Hv (subseq_refl _))
    as [pts Epts].
  exists pts. split; [exact Epts|]. split.
  - rewrite query_unfold, Hv. cbn [bind].
    rewrite (cap_off 0 timed) by lia. cbn [fst snd]. rewrite Epts. cbn [bind].
    rewrite vehicle_ids_hit_count. unfold height.
    rewrite (mapM_length _ _ _ Epts). reflexivity.
  - intros Hall.
    assert (timed = df td) as E.
    { apply filter_all. intros r Hr. specialize (Hall r Hr).
      unfold has_time. destruct (timestep_time r); [reflexivity | congruence]. }
    destruct (init_inv path t td Hi) as [_ [_ [_ Hrc]]].
    destruct (init_fields path t td Hi) as [_ Hvc].
    rewrite E. auto.
Qed.

Lemma full_span_query_witness :
  filter has_time (df unsorted_store) = df unsorted_store /\
  height (filter has_time (df unsorted_store)) = row_count unsorted_store /\
  n_unique (map vehicle_id (filter has_time (df unsorted_store)))
    = vehicle_count unsorted_store.
Proof.
  destruct (full_span_query stable_sort exact_float64 "fcd_geo.csv"
              unsorted_table unsorted_store eq_refl) as [pts [_ [_ H]]].
  apply H. intros r Hr. simpl in Hr.
  destruct Hr as [<-|[<-|[<-|[]]]]; discriminate.
Defined.

(** ** What a query result always satisfies *)

Lemma vehicle_ids_hit_In v s :
  In s (vehicle_ids_hit v) <-> exists r, In r v /\ str (vehicle_id r) = s.
Proof.
  rewrite vehicle_ids_hit_eq. split.
  - intros Hs. apply (Permutation_in _ (Permutation_sym (sorted_perm _))) in Hs.
    apply in_map_iff in Hs. destruct Hs as [i [<- Hi]].
    apply nodup_In, in_map_iff in Hi. destruct Hi as [r [<- Hr]]. eauto.
  - intros [r [Hr <-]]. apply (Permutation_in _ (sorted_perm _)).
    apply in_map, nodup_In, in_map, Hr.
Qed.

Lemma query_view_subseq {float64 : Float64} d ts te bbox ids every v :
  query_view d ts te bbox ids every = Ok v -> subseq v d.
Proof.
  intros Hv. destruct (query_view_ok _ _ _ _ _ _ _ Hv) as [q1 [E1 Es]].
  assert (bbox_arity_ok bbox = true) as E.
  { destruct (apply_bbox_cases (_apply_time d ts te) bbox)
      as [[Hok _]|[_ [msg Hm]]]; [exact Hok | congruence]. }
  destruct (apply_bbox_ok (_apply_time d ts te) bbox E) as [q1' [E1' Hs]].
  rewrite E1 in E1'. injection E1' as <-.
  eapply subseq_trans; [apply (sample_subseq _ _ _ Es)|].
  eapply subseq_trans; [apply subseq_filter|].
  eapply subseq_trans; [apply apply_ids_subseq|].
  eapply subseq_trans; [exact Hs | apply subseq_filter].
Qed.

Lemma Forall2_In_l {A B : Type} (R : A -> B -> Prop) (l : list A) (bs : list B) :
  Forall2 R l bs -> forall a, In a l -> exists b, In b bs /\ R a b.
Proof.
  induction 1 as [|a b l bs Hab _ IH]; simpl; intros x Hx; [contradiction|].
  destruct Hx as [<-|Hx].
  - exists b; auto.
  - destruct (IH x Hx) as [b' [Hb' HR]]. exists b'; auto.
Qed.

(** X8. Whatever [query] returns: [rows] is the number of points and
    [vehicles] the length of the id list, the echoed parameters are the
    ones passed, the number of points exceeds neither a positive limit nor
    the size of the table, the id list is ascending and names the vehicle
    of every returned point, an untruncated result has a point for every
    listed id, and the points follow the row order of the table. *)
Theorem query_result_invariants (float64 : Float64) (d : DataFrame) (ts te : Q)
  (bbox : option (list Q)) (ids : option (list string)) (max_pts : Z)
  (every : Q) (pts : list Point) (hit : list string) (st : QueryStats) :
  query d ts te bbox ids max_pts every = Ok (pts, hit, st) ->
  rows st = Z.of_nat (length pts) /\
  vehicles st = Z.of_nat (length hit) /\
  sample_every st = every /\ max_points st = max_pts /\
  ((0 < max_pts)%Z -> (rows st <= max_pts)%Z) /\
  (rows st <= height d)%Z /\
  StronglySorted str_le hit /\
  (forall p, In p pts -> In (p_vehicleId p) hit) /\
  (truncated st = false ->
   forall s, In s hit -> exists p, In p pts /\ p_vehicleId p = s) /\
  (exists rws, subseq rws d /\ mapM point_of rws = Ok pts).
Proof.
  intros Hq. rewrite query_unfold in Hq.
  destruct (query_view d ts te bbox ids every) as [v|] eqn:Hv;
    simpl in Hq; [|discriminate].
  destruct (mapM point_of (fst (cap max_pts v))) as [ps|] eqn:Eps;
    simpl in Hq; [|discriminate].
  injection Hq as <- <- <-. simpl.
  pose proof (query_view_subseq _ _ _ _ _ _ _ Hv) as Hvd.
  pose proof (cap_subseq max_pts v) as Hcv.
  pose proof (mapM_length _ _ _ Eps) as Hlen.
  pose proof (mapM_Forall2 _ _ _ Eps) as HF.
  repeat split.
  - intros Hpos. rewrite Hlen. unfold cap.
    destruct (over_limit max_pts v) eqn:E; simpl.
    + unfold head. rewrite length_firstn. lia.
    + assert (~ ((0 < max_pts)%Z /\ (max_pts < height v)%Z)) as Hn.
      { intros H. apply over_limit_iff in H. congruence. }
      unfold height in Hn. lia.
  - rewrite Hlen. unfold height. apply inj_le.
    apply subseq_length. eapply subseq_trans; eassumption.
  - rewrite vehicle_ids_hit_eq. apply sorted_ascending.
  - intros p Hp. destruct (Forall2_In_r _ _ _ HF p Hp) as [r [Hr Er]].
    apply vehicle_ids_hit_In. exists r. split.
    + apply (subseq_In _ _ Hcv), Hr.
    + apply point_of_fields in Er. symmetry. tauto.
  - intros Htr s Hs. apply vehicle_ids_hit_In in Hs.
    destruct Hs as [r [Hr Es]].
    rewrite cap_flag in Htr. unfold cap in HF. rewrite Htr in HF. simpl in HF.
    destruct (Forall2_In_l _ _ _ HF r Hr) as [p [Hp Er]].
    exists p. split; [exact Hp|].
    apply point_of_fields in Er. rewrite <- Es. tauto.
  - exists (fst (cap max_pts v)). split; [|exact Eps].
    eapply subseq_trans; eassumption.
Qed.

Lemma query_result_invariants_witness :
  rows {| rows := 1; vehicles := 2; truncated := true;
          sample_every := 0; max_points := 1 |} = 1%Z /\
  ((0 < 1)%Z -> (1 <= 1)%Z).
Proof.
  destruct (query_result_invariants exact_float64 scenario_b 0 10 None None
              1 0
              [ {| p_t := 0; p_vehicleId := "v1"; p_lon := 10; p_lat := 50 |} ]
              [ "v1"%string; "v2"%string ]
              {| rows := 1; vehicles := 2; truncated := true;
                 sample_every := 0; max_points := 1 |} eq_refl)
    as [H1 [_ [_ [_ [H5 _]]]]].
  split; [exact H1 | exact H5].
Defined.

(** ** Vehicles the table does not know *)

Lemma filter_none {A : Type} (f : A -> bool) (l : list A) :
  (forall x, In x l -> f x = false) -> filter f l = [].
Proof.
  induction l as [|x l IH]; simpl; intros H; [reflexivity|].
  rewrite (H x) by (left; reflexivity). apply IH.
  intros y Hy. apply H. right. exact Hy.
Qed.

(** X9. Asking for vehicles the table does not hold is not an error:
    [trajectory] of an unknown id returns no points with truncated = false,
    and [query] restricted to a non-empty list of unknown ids returns no
    points, no ids and zero counts. *)
Theorem unknown_vehicles_give_empty (float64 : Float64) (d : DataFrame) :
  (forall vid ts te max_pts,
      (forall r, In r d -> vehicle_id r <> Some vid) ->
      trajectory d vid ts te max_pts =
        Ok {| tr_vehicleId := vid; tr_truncated := false; tr_pointCount := 0;
              tr_coordinates := []; tr_points := [] |}) /\
  (forall l ts te bbox max_pts every,
      l <> [] ->
      (forall r s, In r d -> In s l -> vehicle_id r <> Some s) ->
      bbox_arity_ok bbox = true ->
      query d ts te bbox (Some l) max_pts every =
        Ok ([], [],
            {| rows := 0; vehicles := 0; truncated := false;
               sample_every := every; max_points := max_pts |})).
Proof.
  split.
  - intros vid ts te max_pts Hun.
    assert (trajectory_view d vid ts te = []) as Hv.
    { assert (filter (is_vehicle vid) d = []) as E.
      { apply filter_none. intros r Hr.
        destruct (is_vehicle vid r) eqn:Ev; [|reflexivity].
        apply is_vehicle_iff in Ev. destruct (Hun r Hr Ev). }
      unfold trajectory_view. rewrite E. simpl. destruct ts, te; reflexivity. }
    rewrite trajectory_unfold, Hv.
    rewrite (cap_off max_pts []) by (unfold height; simpl; lia).
    reflexivity.
  - intros l ts te bbox max_pts every Hne Hun Hb.
    destruct (apply_bbox_ok (_apply_time d ts te) bbox Hb) as [q1 [E1 Hs]].
    assert (_apply_ids q1 (Some l) = []) as Hi.
    { destruct l as [|i l]; [congruence|]. simpl.
      apply filter_none. intros r Hr.
      destruct (is_in (i :: l) r) eqn:Ei; [|reflexivity].
      apply is_in_iff in Ei. destruct Ei as [s [Es Hin]].
      exfalso. apply (Hun r s); auto.
      apply (subseq_In _ _ Hs) in Hr. apply filter_In in Hr. tauto. }
    assert (query_view d ts te bbox (Some l) every = Ok []) as Hv.
    { unfold query_view. rewrite E1. cbn [bind]. rewrite Hi. cbn [filter].
      apply sample_nil. }
    rewrite query_unfold, Hv. cbn [bind].
    rewrite (cap_off max_pts []) by (unfold height; simpl; lia).
    reflexivity.
Qed.

Lemma unknown_vehicles_give_empty_witness :
  trajectory scenario_b "v9" None None 0 =
    Ok {| tr_vehicleId := "v9"; tr_truncated := false; tr_pointCount := 0;
          tr_coordinates := []; tr_points := [] |}.
Proof.
  apply (proj1 (unknown_vehicles_give_empty exact_float64 scenario_b)).
  intros r [<-|[<-|[]]]; discriminate.
Defined.

(** ** Trajectories and queries of one vehicle *)

Definition track_of_point (p : Point) : TrackPoint :=
  {| tp_t := p_t p; tp_lon := p_lon p; tp_lat := p_lat p |}.

Lemma mapM_track_of_point q pts :
  mapM point_of q = Ok pts ->
  mapM track_point_of q = Ok (map track_of_point pts).
Proof.
  revert pts. induction q as [|r q IH]; simpl; intros pts E.
  - injection E as <-. reflexivity.
  - destruct (point_of r) as [p|] eqn:Ep; simpl in E; [|discriminate].
    destruct (mapM point_of q) as [ps|]; simpl in E; [|discriminate].
    injection E as <-. rewrite (IH ps eq_refl).
    unfold point_of in Ep. unfold track_point_of.
    destruct (float (timestep_time r)), (float (vehicle_x r)),
      (float (vehicle_y r)); simpl in *; try discriminate.
    injection Ep as <-. reflexivity.
Qed.

Lemma is_in_single vid r : is_in [vid] r = is_vehicle vid r.
Proof.
  unfold is_in, is_vehicle. destruct (vehicle_id r) as [s|]; [|reflexivity].
  destruct (in_dec string_dec s [vid]) as [H|H], (string_dec s vid) as [E|E];
    try reflexivity.
  - destruct H as [H|[]]. congruence.
  - exfalso. apply H. left. congruence.
Qed.

(** X10. With both time bounds, [trajectory] of a vehicle and an unsampled
    [query] over the same range restricted to that one vehicle return the
    same rows: both calls succeed, the trajectory's points are the query's
    points without the id, every point of the query carries the vehicle's
    id, and the truncation flag and the counts agree. *)
Theorem trajectory_agrees_with_query (float64 : Float64) (d : DataFrame)
  (vid : string) (s e : Q) (max_pts : Z) :
  exists tr pts hit st,
    trajectory d vid (Some s) (Some e) max_pts = Ok tr /\
    query d s e None (Some [vid]) max_pts 0 = Ok (pts, hit, st) /\
    tr_points tr = map track_of_point pts /\
    tr_truncated tr = truncated st /\
    tr_pointCount tr = rows st /\
    (forall p, In p pts -> p_vehicleId p = vid).
Proof.
  set (v := trajectory_view d vid (Some s) (Some e)).
  assert (query_view d s e None (Some [vid]) 0 = Ok v) as Hv.
  { unfold query_view, v, trajectory_view. simpl. f_equal.
    unfold _apply_time.
    rewrite (filter_ext (is_in [vid]) (is_vehicle vid) (is_in_single vid)).
    rewrite (filter_comm (is_vehicle vid) (in_time s e)).
    rewrite (filter_comm has_lon_lat (in_time s e)). reflexivity. }
  destruct (query_view_points _ _ _ _ _ _ v _ Hv (cap_subseq max_pts v))
    as [pts Epts].
  pose proof (mapM_track_of_point _ _ Epts) as Etr.
  do 4 eexists.
  split; [rewrite trajectory_unfold; cbv zeta; fold v; rewrite Etr; reflexivity|].
  split; [rewrite query_unfold, Hv; cbn [bind]; rewrite Epts; reflexivity|].
  simpl. rewrite length_map. repeat split.
  intros p Hp.
  destruct (Forall2_In_r _ _ _ (mapM_Forall2 _ _ _ Epts) p Hp) as [r [Hr Er]].
  apply (subseq_In _ _ (cap_subseq _ _)) in Hr.
  apply (subseq_In _ _ (trajectory_view_subseq _ _ _ _)) in Hr.
  apply filter_In in Hr. destruct Hr as [_ Hr]. apply is_vehicle_iff in Hr.
  apply point_of_fields in Er. destruct Er as [_ [_ [_ ->]]].
  rewrite Hr. reflexivity.
Qed.

(** X11. Whatever [trajectory] returns: the id is the one asked for,
    [pointCount] is the number of points and never exceeds a positive limit
    or the size of the table, the line-string coordinates are the
    (lon, lat) pairs of the points in the same order, every point is a row
    of that vehicle in the table, and with both bounds given every point
    lies in the closed time range. *)
Theorem trajectory_result_invariants (d : DataFrame) (vid : string)
  (ts te : option Q) (max_pts : Z) (tr : Trajectory) :
  trajectory d vid ts te max_pts = Ok tr ->
  tr_vehicleId tr = vid /\
  tr_pointCount tr = Z.of_nat (length (tr_points tr)) /\
  tr_coordinates tr = map (fun p => (tp_lon p, tp_lat p)) (tr_points tr) /\
  ((0 < max_pts)%Z -> (tr_pointCount tr <= max_pts)%Z) /\
  (tr_pointCount tr <= height d)%Z /\
  (forall p, In p (tr_points tr) ->
     exists r, In r d /\ vehicle_id r = Some vid /\
               timestep_time r = Some (tp_t p) /\
               vehicle_x r = Some (tp_lon p) /\
               vehicle_y r = Some (tp_lat p)) /\
  (forall s e, ts = Some s -> te = Some e ->
     forall p, In p (tr_points tr) -> s <= tp_t p /\ tp_t p <= e).
Proof.
  intros H. pose proof H as H0. rewrite trajectory_unfold in H. cbv zeta in H.
  set (v := trajectory_view d vid ts te) in *.
  destruct (mapM track_point_of (fst (cap max_pts v))) as [ps|] eqn:Eps;
    simpl in H; [|discriminate].
  injection H as <-. simpl.
  pose proof (mapM_length _ _ _ Eps) as Hlen.
  pose proof (cap_subseq max_pts v) as Hcv.
  pose proof (trajectory_view_subseq d vid ts te) as Hvd. fold v in Hvd.
  repeat split.
  - intros Hpos. rewrite Hlen. unfold cap.
    destruct (over_limit max_pts v) eqn:E; simpl.
    + unfold head. rewrite length_firstn. lia.
    + assert (~ ((0 < max_pts)%Z /\ (max_pts < height v)%Z)) as Hn.
      { intros Hc. apply over_limit_iff in Hc. congruence. }
      unfold height in Hn. lia.
  - rewrite Hlen. unfold height. apply inj_le, subseq_length.
    eapply subseq_trans; [exact Hcv|].
    eapply subseq_trans; [exact Hvd | apply subseq_filter].
  - intros p Hp.
    destruct (Forall2_In_r _ _ _ (mapM_Forall2 _ _ _ Eps) p Hp) as [r [Hr Er]].
    apply (subseq_In _ _ Hcv), (subseq_In _ _ Hvd), filter_In in Hr.
    destruct Hr as [Hr Hv]. apply is_vehicle_iff in Hv.
    apply track_point_of_fields in Er. exists r. tauto.
  - destruct (Forall2_In_r _ _ _ (mapM_Forall2 _ _ _ Eps) p H2) as [r [Hr Er]].
    apply (subseq_In _ _ Hcv) in Hr. subst ts te.
    unfold v, trajectory_view, _apply_time in Hr. apply filter_In in Hr.
    destruct Hr as [_ Hr]. apply in_time_iff in Hr.
    destruct Hr as [t0 [Et [H3 _]]].
    apply track_point_of_fields in Er. destruct Er as [Et' _].
    rewrite Et in Et'. injection Et' as ->. exact H3.
  - destruct (Forall2_In_r _ _ _ (mapM_Forall2 _ _ _ Eps) p H2) as [r [Hr Er]].
    apply (subseq_In _ _ Hcv) in Hr. subst ts te.
    unfold v, trajectory_view, _apply_time in Hr. apply filter_In in Hr.
    destruct Hr as [_ Hr]. apply in_time_iff in Hr.
    destruct Hr as [t0 [Et [_ H3]]].
    apply track_point_of_fields in Er. destruct Er as [Et' _].
    rewrite Et in Et'. injection Et' as ->. exact H3.
Qed.

Lemma trajectory_result_invariants_witness :
  tr_vehicleId
    {| tr_vehicleId := "v1"; tr_truncated := true; tr_pointCount := 1;
       tr_coordinates := [ (10, 50) ];
       tr_points := [ {| tp_t := 0; tp_lon := 10; tp_lat := 50 |} ] |}
    = "v1"%string.
Proof.
  apply (trajectory_result_invariants scenario_a "v1" None None 1). reflexivity.
Defined.

(** X12. On a table whose rows all have a longitude and a latitude (every
    loaded table), [vehicles] lists what a [query] over the same range and
    box without an id filter reports as its vehicle ids, cut to the limit,
    whatever the query's sampling width and row limit. *)
Theorem vehicles_agree_with_query (float64 : Float64) (d : DataFrame)
  (ts te : Q) (bbox : option (list Q)) (max_pts : Z) (every : Q) (limit : Z)
  (pts : list Point) (hit : list string) (st : QueryStats) :
  (forall r, In r d -> has_lon_lat r = true) ->
  query d ts te bbox None max_pts every = Ok (pts, hit, st) ->
  TrafficData_vehicles d ts te bbox limit
    = Ok (firstn (Z.to_nat (Z.max 0 limit)) hit).
Proof.
  intros Hll Hq. rewrite query_unfold in Hq. unfold query_view in Hq.
  unfold TrafficData_vehicles.
  destruct (_apply_bbox (_apply_time d ts te) bbox) as [q1|] eqn:Eb;
    simpl in Hq; [|discriminate].
  assert (filter has_lon_lat q1 = q1) as Hq1.
  { apply filter_all. intros r Hr. apply Hll.
    destruct (apply_bbox_rows _ _ _ Eb r Hr) as [Hr' _].
    apply filter_In in Hr'. tauto. }
  cbn [_apply_ids] in Hq. rewrite Hq1 in Hq.
  destruct (_sample q1 every) as [v|] eqn:Ev; cbn [bind] in Hq; [|discriminate].
  cbv zeta in Hq.
  destruct (mapM point_of _) as [ps|]; simpl in Hq; [|discriminate].
  injection Hq as _ <- _. simpl.
  rewrite (sample_same_hit _ _ _ Ev), vehicle_ids_hit_eq. reflexivity.
Qed.

Lemma vehicles_agree_with_query_witness :
  TrafficData_vehicles scenario_b 0 10 None 1
    = Ok (firstn (Z.to_nat (Z.max 0 1)) [ "v1"%string; "v2"%string ]).
Proof.
  apply (vehicles_agree_with_query exact_float64 scenario_b 0 10 None 1 0 1
           [ {| p_t := 0; p_vehicleId := "v1"; p_lon := 10; p_lat := 50 |} ]
           [ "v1"%string; "v2"%string ]
           {| rows := 1; vehicles := 2; truncated := true;
              sample_every := 0; max_points := 1 |}).
  - intros r [<-|[<-|[]]]; reflexivity.
  - reflexivity.
Defined.

(** * The HTTP layer *)

Fixpoint count_commas (s : string) : nat :=
  match s with
  | EmptyString => 0
  | String c s' => (if Ascii.eqb c ","%char then 1 else 0) + count_commas s'
  end.

Lemma split_comma_length s : length (split_comma s) = Datatypes.S (count_commas s).
Proof.
  induction s as [|c s IH]; simpl; [reflexivity|].
  destruct (Ascii.eqb c ","%char); simpl; [congruence|].
  destruct (split_comma s); simpl in *; congruence.
Qed.

Lemma split_comma_nonempty s : split_comma s <> [].
Proof.
  intros E. pose proof (split_comma_length s) as H. rewrite E in H.
  discriminate.
Qed.

(** Joining the parts with commas gives the text back. *)
Lemma split_comma_join s : String.concat "," (split_comma s) = s.
Proof.
  induction s as [|c s IH]; [reflexivity|].
  pose proof (split_comma_nonempty s) as Hne.
  cbn [split_comma]. destruct (Ascii.eqb c ","%char) eqn:E.
  - apply Ascii.eqb_eq in E. subst c.
    destruct (split_comma s) as [|p ps]; [congruence|].
    cbn [String.concat] in *. rewrite IH. reflexivity.
  - destruct (split_comma s) as [|p ps]; [congruence|].
    destruct ps as [|p' ps]; cbn [String.concat] in *.
    + subst p. reflexivity.
    + rewrite <- IH. reflexivity.
Qed.

Section AppFacts.
Context {S : DataFrameSort}.
Variable strip : string -> string.
Variable float_of_str : string -> result Q.
Variable path : string.

Lemma parse_bbox_some s :
  s <> EmptyString ->
  _parse_bbox strip float_of_str (Some s) =
    (let parts := map strip (split_comma s) in
     if negb (Nat.eqb (length parts) 4)
     then Raise (ValueError "bbox must be west,south,east,north")
     else
       west <- float_of_str (nth 0 parts EmptyString) ;;
       south <- float_of_str (nth 1 parts EmptyString) ;;
       east <- float_of_str (nth 2 parts EmptyString) ;;
       north <- float_of_str (nth 3 parts EmptyString) ;;
       Ok (Some [west; south; east; north])).
Proof. destruct s; [congruence | reflexivity]. Qed.

Lemma parse_bbox_ok_arity bbox box :
  _parse_bbox strip float_of_str bbox = Ok box -> bbox_arity_ok box = true.
Proof.
  intros Ep. destruct box as [l|]; [|reflexivity].
  destruct bbox as [s|]; [|discriminate].
  destruct s as [|c s]; [discriminate|].
  rewrite parse_bbox_some in Ep by discriminate. cbv zeta in Ep.
  destruct (negb _); [discriminate|].
  destruct (float_of_str _); simpl in Ep; [|discriminate].
  destruct (float_of_str _); simpl in Ep; [|discriminate].
  destruct (float_of_str _); simpl in Ep; [|discriminate].
  destruct (float_of_str _); simpl in Ep; [|discriminate].
  injection Ep as <-. reflexivity.
Qed.

Lemma get_traffic_state file st got st' :
  _get_traffic path file st = (got, st') ->
  (forall td, st = Some td -> got = Ok td /\ st' = Some td) /\
  (st = None -> got = __init__ path file /\
                match got with Ok td => st' = Some td | Raise _ => st' = None end).
Proof.
  unfold _get_traffic. destruct st as [td0|].
  - intros [= <- <-]. split; [intros td [= <-]; auto | discriminate].
  - destruct (__init__ path file) as [td|e]; intros [= <- <-];
      (split; [discriminate | auto]).
Qed.
End AppFacts.

(** X13. [_parse_bbox] gives no box for an absent or empty text; for any
    other text it fails with the arity message unless the text has exactly
    three commas, whatever the numbers are; and a box it does return has
    four components, so the unpacking in [_apply_bbox] cannot fail on it. *)
Theorem parse_bbox_arity (strip : string -> string)
  (float_of_str : string -> result Q) :
  _parse_bbox strip float_of_str None = Ok None /\
  _parse_bbox strip float_of_str (Some EmptyString) = Ok None /\
  (forall s, s <> EmptyString -> count_commas s <> 3%nat ->
     _parse_bbox strip float_of_str (Some s)
       = Raise (ValueError "bbox must be west,south,east,north")) /\
  (forall s box, _parse_bbox strip float_of_str (Some s) = Ok (Some box) ->
     count_commas s = 3%nat /\ length box = 4%nat) /\
  (forall bbox box q, _parse_bbox strip float_of_str bbox = Ok box ->
     bbox_arity_ok box = true /\ exists q', _apply_bbox q box = Ok q').
Proof.
  assert (forall s box, _parse_bbox strip float_of_str (Some s) = Ok (Some box) ->
            count_commas s = 3%nat /\ length box = 4%nat) as Hsome.
  { intros s box H. destruct s as [|c s]; [discriminate|].
    rewrite parse_bbox_some in H by discriminate. cbv zeta in H.
    rewrite length_map, split_comma_length in H.
    destruct (Nat.eqb (Datatypes.S (count_commas (String c s))) 4) eqn:E;
      simpl in H; [|discriminate].
    apply Nat.eqb_eq in E.
    destruct (float_of_str _); simpl in H; [|discriminate].
    destruct (float_of_str _); simpl in H; [|discriminate].
    destruct (float_of_str _); simpl in H; [|discriminate].
    destruct (float_of_str _); simpl in H; [|discriminate].
    injection H as <-. split; [lia | reflexivity]. }
  split; [reflexivity|]. split; [reflexivity|]. split; [|split; [exact Hsome|]].
  - intros s Hne Hc. rewrite parse_bbox_some by exact Hne. cbv zeta.
    rewrite length_map, split_comma_length.
    destruct (Nat.eqb (Datatypes.S (count_commas s)) 4) eqn:E; [|reflexivity].
    apply Nat.eqb_eq in E. lia.
  - intros bbox box q H.
    assert (bbox_arity_ok box = true) as Hok.
    { destruct box as [l|]; [|reflexivity].
      destruct bbox as [s|]; [|discriminate].
      destruct (Hsome s l H) as [_ Hl]. simpl. rewrite Hl. reflexivity. }
    split; [exact Hok|].
    destruct (apply_bbox_ok q box Hok) as [q' [Hq' _]]. eauto.
Qed.

Lemma parse_bbox_arity_witness :
  count_commas "120,30,122,32"%string = 3%nat /\
  length [ inject_Z 120; inject_Z 30; inject_Z 122; inject_Z 32 ] = 4%nat.
Proof.
  apply (proj1 (proj2 (proj2 (proj2 (parse_bbox_arity (fun s => s) decimal))))
           "120,30,122,32"%string
           [ inject_Z 120; inject_Z 30; inject_Z 122; inject_Z 32 ]).
  reflexivity.
Defined.

(** ** Overlapping calls *)

Section Interleavings.
Context {S : DataFrameSort}.
Variable path : string.
Variable file : CsvTable.
Variable st0 : AppState.

(** What every call is shown to give, and the store it leaves: those of
    one call run alone from [st0]. *)
Let alone : result TrafficData := fst (_get_traffic path file st0).
Let after : AppState := snd (_get_traffic path file st0).

Lemma alone_found td : st0 = Some td -> alone = Ok td /\ after = Some td.
Proof. intros E. unfold alone, after. rewrite E. auto. Qed.

Lemma alone_built :
  st0 = None ->
  alone = __init__ path file /\
  (forall td, __init__ path file = Ok td -> after = Some td) /\
  (forall e, __init__ path file = Raise e -> after = None).
Proof.
  intros E. unfold alone, after. rewrite E. unfold _get_traffic.
  destruct (__init__ path file) as [td|e]; simpl;
    (split; [reflexivity|]); split; congruence.
Qed.

Lemma after_some td : after = Some td -> alone = Ok td.
Proof.
  unfold alone, after, _get_traffic. destruct st0 as [td0|].
  - simpl. congruence.
  - destruct (__init__ path file); simpl; congruence.
Qed.

Lemma after_none : after = None -> st0 = None.
Proof.
  unfold after, _get_traffic. destruct st0 as [td0|]; [discriminate|].
  reflexivity.
Qed.

Lemma alone_ok td : alone = Ok td -> after = Some td.
Proof.
  unfold alone, after, _get_traffic. destruct st0 as [td0|].
  - simpl. congruence.
  - destruct (__init__ path file); simpl; congruence.
Qed.

(** What holds of a call at each of its points, the store being [cur]. *)
Definition call_ok (cur : AppState) (c : call) : Prop :=
  match c with
  | Start => True
  | Constructing => st0 = None
  | Assigning td => st0 = None /\ __init__ path file = Ok td
  | Rereading => cur = after /\ exists td, alone = Ok td
  | Returned t => exists td, t = Some td /\ alone = Ok td
  | Raised e => alone = Raise e
  end.

Definition server_ok (s : Server) : Prop :=
  (app_state s = st0 \/ app_state s = after) /\
  Forall (call_ok (app_state s)) (calls s).

Lemma call_ok_after cur c : call_ok cur c -> call_ok after c.
Proof. destruct c; simpl; tauto. Qed.

Lemma Forall_set_call (P : call -> Prop) i c l :
  Forall P l -> P c -> Forall P (set_call i c l).
Proof.
  revert i. induction l as [|x l IH]; intros i Hl Hc.
  - destruct i; constructor.
  - inversion Hl; subst. destruct i; simpl; constructor; auto.
Qed.

Lemma nth_error_Forall (P : call -> Prop) i c l :
  Forall P l -> nth_error l i = Some c -> P c.
Proof.
  intros Hl E. rewrite Forall_forall in Hl. apply Hl.
  eapply nth_error_In, E.
Qed.

Lemma server_step_ok i s : server_ok s -> server_ok (server_step path file i s).
Proof.
  intros [Hst Hcs]. unfold server_step.
  destruct (nth_error (calls s) i) as [c|] eqn:En; [|split; assumption].
  pose proof (nth_error_Forall _ _ _ _ Hcs En) as Hc.
  destruct c as [| |td| |t|e]; simpl in *.
  - (* Start *)
    split; [exact Hst|]. apply Forall_set_call; [exact Hcs|].
    destruct (app_state s) as [t|] eqn:Ea; simpl.
    + exists t. split; [reflexivity|].
      destruct Hst as [H|H]; symmetry in H.
      * apply (alone_found t H).
      * apply after_some, H.
    + destruct Hst as [H|H]; [congruence|].
      apply after_none. congruence.
  - (* Constructing *)
    split; [exact Hst|]. apply Forall_set_call; [exact Hcs|].
    destruct (alone_built Hc) as [Ha _].
    destruct (__init__ path file) as [td|e] eqn:Ei; simpl; auto.
  - (* Assigning *)
    destruct Hc as [H0 Hi].
    destruct (alone_built H0) as [Ha [Hb _]].
    assert (after = Some td) as Haf by (apply Hb, Hi).
    unfold server_ok. simpl.
    split; [right; congruence|]. rewrite <- Haf.
    apply Forall_set_call.
    + eapply Forall_impl; [|exact Hcs]. apply call_ok_after.
    + simpl. split; [reflexivity|]. exists td. congruence.
  - (* Rereading *)
    split; [exact Hst|]. apply Forall_set_call; [exact Hcs|].
    destruct Hc as [Hcur [td Htd]]. simpl. exists td.
    split; [|exact Htd]. rewrite Hcur. apply alone_ok, Htd.
  - split; [exact Hst|]. apply Forall_set_call; [exact Hcs | exact Hc].
  - split; [exact Hst|]. apply Forall_set_call; [exact Hcs | exact Hc].
Qed.

Lemma run_ok schedule s : server_ok s -> server_ok (run path file schedule s).
Proof.
  revert s. induction schedule as [|i l IH]; intros s H; simpl; [exact H|].
  apply IH, server_step_ok, H.
Qed.

Lemma arrivals_ok n : server_ok (arrivals st0 n).
Proof.
  split; [left; reflexivity|]. simpl.
  apply Forall_forall. intros c Hc. apply repeat_spec in Hc. subst c.
  exact I.
Qed.

Lemma call_ok_result cur c r :
  call_ok cur c -> call_result c = Some r -> r = alone.
Proof.
  destruct c as [| |td| |t|e]; simpl; try discriminate.
  - intros [td [-> Ha]] [= <-]. congruence.
  - intros Ha [= <-]. congruence.
Qed.
End Interleavings.

(** Constructor runs made plus constructor runs still possible. *)
Definition budget (s : Server) : nat :=
  (loads s + list_sum (map pending (calls s)))%nat.

Lemma set_call_pending i c c' l :
  nth_error l i = Some c ->
  (list_sum (map pending (set_call i c' l)) + pending c =
   list_sum (map pending l) + pending c')%nat.
Proof.
  revert i. induction l as [|x l IH]; intros i E.
  - destruct i; discriminate.
  - destruct i as [|i]; simpl in *.
    + injection E as ->. lia.
    + specialize (IH i E). lia.
Qed.

Lemma server_step_budget {S : DataFrameSort} path file i s :
  (budget (server_step path file i s) <= budget s)%nat.
Proof.
  unfold server_step, budget.
  destruct (nth_error (calls s) i) as [c|] eqn:En; [|lia].
  destruct (call_step path file (app_state s) c) as [[c' st'] n] eqn:Es.
  simpl. pose proof (set_call_pending i c c' (calls s) En) as H.
  assert (n + pending c' <= pending c)%nat as Hn.
  { destruct c as [| |td| |t|e]; simpl in Es; injection Es as <- _ <-;
      simpl; try lia.
    - destruct (app_state s); simpl; lia.
    - destruct (__init__ path file); simpl; lia. }
  lia.
Qed.

Lemma run_budget {S : DataFrameSort} path file schedule s :
  (budget (run path file schedule s) <= budget s)%nat.
Proof.
  revert s. induction schedule as [|i l IH]; intros s; simpl; [lia|].
  etransitivity; [apply IH | apply server_step_budget].
Qed.

Lemma arrivals_budget st n : budget (arrivals st n) = n.
Proof.
  unfold budget, arrivals. simpl.
  induction n as [|n IH]; simpl; [reflexivity|]. rewrite IH. reflexivity.
Qed.

(** X14. [_get_traffic] takes no lock, and calls that overlap interleave
    at its reads and writes of [app.state].  The file staying as it is:
    (1) a call that runs alone gives the result and leaves the store of the
    state-passing [_get_traffic], with one constructor run when it found no
    store and none otherwise; (2) the load is not single flight: two calls
    that both read the empty store before either has assigned both run the
    constructor; (3) however the calls interleave, the constructor runs at
    most once per call, every finished call has returned or raised what a
    call run alone from the first state would have, and the store is the
    first one or the one such a call leaves; (4) a call that reads a store
    returns it and constructs nothing. *)
Theorem get_traffic_interleavings (S : DataFrameSort) (path : string)
  (file : CsvTable) :
  (forall st, exists c,
      calls (run path file [0; 0; 0; 0]%nat (arrivals st 1)) = [c] /\
      call_result c = Some (fst (_get_traffic path file st)) /\
      app_state (run path file [0; 0; 0; 0]%nat (arrivals st 1))
        = snd (_get_traffic path file st) /\
      loads (run path file [0; 0; 0; 0]%nat (arrivals st 1))
        = match st with Some _ => 0%nat | None => 1%nat end) /\
  (forall td, __init__ path file = Ok td ->
      run path file [0; 1; 0; 1; 0; 1; 0; 1]%nat (arrivals None 2) =
        {| app_state := Some td; loads := 2;
           calls := [ Returned (Some td); Returned (Some td) ] |}) /\
  (forall st n schedule,
      let s := run path file schedule (arrivals st n) in
      (loads s <= n)%nat /\
      (app_state s = st \/ app_state s = snd (_get_traffic path file st)) /\
      (forall c r, In c (calls s) -> call_result c = Some r ->
                   r = fst (_get_traffic path file st))) /\
  (forall s i td,
      app_state s = Some td -> nth_error (calls s) i = Some Start ->
      server_step path file i s =
        {| app_state := Some td; loads := loads s;
           calls := set_call i (Returned (Some td)) (calls s) |}).
Proof.
  split; [|split; [|split]].
  - intros [td|]; simpl.
    + eexists. repeat split.
    + unfold server_step, _get_traffic. simpl.
      destruct (__init__ path file) as [td|e]; simpl; eexists; repeat split.
  - intros td H. unfold arrivals. simpl.
    unfold server_step. simpl. rewrite H. reflexivity.
  - intros st n schedule s.
    pose proof (run_ok path file st schedule _ (arrivals_ok path file st n))
      as [Hst Hcs].
    fold s in Hst, Hcs. split; [|split; [exact Hst|]].
    + pose proof (run_budget path file schedule (arrivals st n)) as H.
      fold s in H. rewrite arrivals_budget in H. unfold budget in H. lia.
    + intros c r Hc Hr. rewrite Forall_forall in Hcs.
      apply (call_ok_result path file st _ c r (Hcs c Hc) Hr).
  - intros s i td Ea En. unfold server_step. rewrite En. simpl.
    rewrite Ea. f_equal. lia.
Qed.

Lemma get_traffic_interleavings_witness :
  @run stable_sort "fcd_geo.csv" unsorted_table [0; 1; 0; 1; 0; 1; 0; 1]%nat
    (arrivals None 2) =
  {| app_state := Some unsorted_store; loads := 2;
     calls := [ Returned (Some unsorted_store);
                Returned (Some unsorted_store) ] |}.
Proof.
  apply (proj1 (proj2 (get_traffic_interleavings stable_sort "fcd_geo.csv"
                         unsorted_table))
           unsorted_store).
  reflexivity.
Defined.

(** X15. The trajectory route never truncates: it calls [trajectory]
    without a limit, so whatever it returns has truncated = false and holds
    every row the store has for the vehicle in the requested range. *)
Theorem api_trajectory_never_truncates (S : DataFrameSort) (path : string)
  (file : CsvTable) (st : AppState) (vid : string) (ts te : option Q)
  (tr : Trajectory) (st' : AppState) :
  api_trajectory path file st vid ts te = (Ok tr, st') ->
  exists td,
    st' = Some td /\
    tr_truncated tr = false /\
    mapM track_point_of (trajectory_view (df td) vid ts te) = Ok (tr_points tr) /\
    tr_pointCount tr = height (trajectory_view (df td) vid ts te).
Proof.
  unfold api_trajectory.
  destruct (_get_traffic path file st) as [got st1] eqn:Eg.
  intros [= H <-].
  destruct got as [td|e]; simpl in H; [|discriminate].
  destruct (get_traffic_state path file st _ _ Eg) as [H1 H2].
  exists td. split.
  - destruct st as [td0|].
    + destruct (H1 td0 eq_refl) as [[= <-] ->]. reflexivity.
    + destruct (H2 eq_refl) as [_ ->]. reflexivity.
  - rewrite trajectory_unfold in H. cbv zeta in H.
    rewrite (cap_off 0 _) in H by lia. cbn [fst snd] in H.
    destruct (mapM track_point_of _) as [ps|] eqn:Eps; simpl in H;
      [|discriminate].
    injection H as <-. simpl. repeat split.
    unfold height. rewrite (mapM_length _ _ _ Eps). reflexivity.
Qed.

Lemma api_trajectory_never_truncates_witness :
  exists td,
    Some unsorted_store = Some td /\
    tr_truncated
      {| tr_vehicleId := "v2"; tr_truncated := false; tr_pointCount := 1;
         tr_coordinates := [ (20, 60) ];
         tr_points := [ {| tp_t := 1; tp_lon := 20; tp_lat := 60 |} ] |} = false /\
    mapM track_point_of (trajectory_view (df td) "v2" None None)
      = Ok [ {| tp_t := 1; tp_lon := 20; tp_lat := 60 |} ] /\
    1%Z = height (trajectory_view (df td) "v2" None None).
Proof.
  apply (api_trajectory_never_truncates stable_sort "fcd_geo.csv"
           unsorted_table None "v2" None None).
  reflexivity.
Defined.

(** X16. The vehicles route fails only while loading or while parsing the
    box text: once the store is there and the text parses, the listing is
    returned.  The store is fetched before the text is parsed, so a request
    with a bad box still loads and keeps the store. *)
Theorem api_vehicles_errors (S : DataFrameSort)
  (strip : string -> string) (float_of_str : string -> result Q)
  (path : string) (file : CsvTable) (st : AppState) (ts te : Q)
  (bbox : option string) (limit : Z) :
  (forall e st',
      api_vehicles strip float_of_str path file st ts te bbox limit
        = (Raise e, st') ->
      (st = None /\ st' = None /\ __init__ path file = Raise e) \/
      (exists td, st' = Some td /\
                  _parse_bbox strip float_of_str bbox = Raise e)) /\
  (forall td box,
      fst (_get_traffic path file st) = Ok td ->
      _parse_bbox strip float_of_str bbox = Ok box ->
      exists ids,
        api_vehicles strip float_of_str path file st ts te bbox limit
          = (Ok ids, Some td) /\
        TrafficData_vehicles (df td) ts te box limit = Ok ids).
Proof.
  unfold api_vehicles.
  destruct (_get_traffic path file st) as [got st1] eqn:Eg.
  destruct (get_traffic_state path file st _ _ Eg) as [H1 H2].
  assert (forall td, got = Ok td -> st1 = Some td) as Hst.
  { intros td ->. destruct st as [td0|].
    - destruct (H1 td0 eq_refl) as [[= <-] ->]. reflexivity.
    - destruct (H2 eq_refl) as [_ ->]. reflexivity. }
  split.
  - intros e st' [= H <-]. destruct got as [td|e0]; simpl in H.
    + right. exists td. split; [apply Hst; reflexivity|].
      destruct (_parse_bbox strip float_of_str bbox) as [box|e1] eqn:Ep;
        simpl in H; [|congruence].
      exfalso.
      pose proof (parse_bbox_ok_arity strip float_of_str bbox box Ep) as Hok.
      unfold TrafficData_vehicles in H.
      destruct (apply_bbox_ok (_apply_time (df td) ts te) box Hok)
        as [q' [Hq' _]].
      rewrite Hq' in H. discriminate.
    + left. injection H as <-. destruct st as [td0|].
      * destruct (H1 td0 eq_refl) as [E _]. discriminate.
      * destruct (H2 eq_refl) as [E ->]. auto.
  - simpl. intros td box -> Ep. rewrite Ep. simpl.
    rewrite (Hst td eq_refl).
    pose proof (parse_bbox_ok_arity strip float_of_str bbox box Ep) as Hok.
    unfold TrafficData_vehicles.
    destruct (apply_bbox_ok (_apply_time (df td) ts te) box Hok)
      as [q' [Hq' _]].
    rewrite Hq'. simpl. eexists. split; reflexivity.
Qed.

Lemma api_vehicles_errors_witness :
  exists ids,
    @api_vehicles stable_sort (fun s => s) decimal "fcd_geo.csv"
      unsorted_table None 0 2 (Some "0,0,100,100"%string) 10
      = (Ok ids, Some unsorted_store) /\
    TrafficData_vehicles (df unsorted_store) 0 2
      (Some [ inject_Z 0; inject_Z 0; inject_Z 100; inject_Z 100 ]) 10
      = Ok ids.
Proof.
  apply (proj2 (api_vehicles_errors stable_sort (fun s => s) decimal
                  "fcd_geo.csv" unsorted_table None 0 2
                  (Some "0,0,100,100"%string) 10)
           unsorted_store
           (Some [ inject_Z 0; inject_Z 0; inject_Z 100; inject_Z 100 ]));
    reflexivity.
Defined.

(** * Route patching *)

Import Routes.

Lemma lookup_assign_same k v a : lookup k (assign k v a) = Some v.
Proof.
  induction a as [|[k' v'] a IH]; simpl.
  - rewrite String.eqb_refl. reflexivity.
  - destruct (String.eqb k' k) eqn:E; simpl; rewrite E; auto.
Qed.

Lemma lookup_assign_other k k' v a :
  k <> k' -> lookup k' (assign k v a) = lookup k' a.
Proof.
  intros Hne. induction a as [|[k0 v0] a IH]; simpl.
  - apply String.eqb_neq in Hne. rewrite Hne. reflexivity.
  - destruct (String.eqb k0 k) eqn:E; simpl.
    + apply String.eqb_eq in E. subst k0.
      apply String.eqb_neq in Hne. rewrite Hne. reflexivity.
    + rewrite IH. reflexivity.
Qed.

Lemma assign_same_value k v a : lookup k a = Some v -> assign k v a = a.
Proof.
  induction a as [|[k' v'] a IH]; simpl; [discriminate|].
  destruct (String.eqb k' k) eqn:E.
  - intros [= ->]. reflexivity.
  - intros H. rewrite (IH H). reflexivity.
Qed.

Lemma get_set_same k v e : get k (set_attr k v e) = Some v.
Proof. destruct e. apply lookup_assign_same. Qed.

Lemma get_set_other k k' v e : k <> k' -> get k' (set_attr k v e) = get k' e.
Proof. destruct e. apply lookup_assign_other. Qed.

Lemma set_same_value k v e : get k e = Some v -> set_attr k v e = e.
Proof.
  destruct e as [t a c]. unfold get. simpl. intros H.
  rewrite (assign_same_value k v a H). reflexivity.
Qed.

Lemma tag_set k v e : tag_of (set_attr k v e) = tag_of e.
Proof. destruct e. reflexivity. Qed.

Lemma children_set k v e : children_of (set_attr k v e) = children_of e.
Proof. destruct e. reflexivity. Qed.

Lemma tag_default k v e : tag_of (set_default k v e) = tag_of e.
Proof. unfold set_default. destruct (get k e); [reflexivity | apply tag_set]. Qed.

Lemma children_default k v e :
  children_of (set_default k v e) = children_of e.
Proof.
  unfold set_default. destruct (get k e); [reflexivity | apply children_set].
Qed.

Lemma get_default_present k v e : get k (set_default k v e) <> None.
Proof.
  unfold set_default. destruct (get k e) eqn:E.
  - rewrite E. discriminate.
  - rewrite get_set_same. discriminate.
Qed.

Lemma get_default_kept k v e x :
  get k e = Some x -> set_default k v e = e.
Proof. unfold set_default. intros ->. reflexivity. Qed.

Lemma get_default_other k k' v e :
  k <> k' -> get k' (set_default k v e) = get k' e.
Proof.
  intros H. unfold set_default.
  destruct (get k e); [reflexivity | apply get_set_other, H].
Qed.

Lemma get_default_keeps_value k k' v e x :
  get k' e = Some x -> get k' (set_default k v e) = Some x.
Proof.
  intros H. unfold set_default. destruct (get k e) eqn:E; [exact H|].
  destruct (string_dec k k') as [->|Hne]; [congruence|].
  rewrite get_set_other by exact Hne. exact H.
Qed.

Lemma has_tag_true t e : has_tag t e = true <-> tag_of e = t.
Proof. unfold has_tag. apply String.eqb_eq. Qed.

Definition bound (v : element) : element :=
  fill_depart (set_attr "type" vtype_id v).

Lemma tag_stabilise e : tag_of (stabilise e) = tag_of e.
Proof. unfold stabilise. rewrite !tag_set. reflexivity. Qed.

Lemma tag_fill_depart e : tag_of (fill_depart e) = tag_of e.
Proof. unfold fill_depart. rewrite !tag_default. reflexivity. Qed.

Lemma tag_bound e : tag_of (bound e) = tag_of e.
Proof. unfold bound. rewrite tag_fill_depart, tag_set. reflexivity. Qed.

Lemma children_stabilise e : children_of (stabilise e) = children_of e.
Proof. unfold stabilise. rewrite !children_set. reflexivity. Qed.

Lemma children_fill_depart e : children_of (fill_depart e) = children_of e.
Proof. unfold fill_depart. rewrite !children_default. reflexivity. Qed.

Lemma children_bound e : children_of (bound e) = children_of e.
Proof. unfold bound. rewrite children_fill_depart, children_set. reflexivity. Qed.

Lemma stabilise_sets e :
  get "sigma" (stabilise e) = Some "0"%string /\
  get "speedDev" (stabilise e) = Some "0"%string.
Proof.
  unfold stabilise. split.
  - rewrite get_set_other by discriminate. apply get_set_same.
  - apply get_set_same.
Qed.

Lemma stabilise_other k e :
  k <> "sigma"%string -> k <> "speedDev"%string ->
  get k (stabilise e) = get k e.
Proof.
  intros H1 H2. unfold stabilise.
  rewrite !get_set_other by congruence. reflexivity.
Qed.

Lemma stabilise_fixed e :
  get "sigma" e = Some "0"%string -> get "speedDev" e = Some "0"%string ->
  stabilise e = e.
Proof.
  intros H1 H2. unfold stabilise.
  rewrite (set_same_value "sigma" "0" e H1). apply set_same_value, H2.
Qed.

Definition departs_present (e : element) : Prop :=
  get "departLane" e <> None /\ get "departPos" e <> None /\
  get "departSpeed" e <> None.

Lemma fill_depart_present e : departs_present (fill_depart e).
Proof.
  unfold departs_present, fill_depart. repeat split.
  - rewrite !get_default_other by discriminate. apply get_default_present.
  - rewrite get_default_other by discriminate. apply get_default_present.
  - apply get_default_present.
Qed.

Lemma fill_depart_keeps_value k e x :
  get k e = Some x -> get k (fill_depart e) = Some x.
Proof.
  intros H. unfold fill_depart.
  repeat apply get_default_keeps_value. exact H.
Qed.

Lemma fill_depart_fixed e : departs_present e -> fill_depart e = e.
Proof.
  intros [H1 [H2 H3]]. unfold fill_depart.
  destruct (get "departLane" e) as [x1|] eqn:E1; [|congruence].
  destruct (get "departPos" e) as [x2|] eqn:E2; [|congruence].
  destruct (get "departSpeed" e) as [x3|] eqn:E3; [|congruence].
  rewrite (get_default_kept _ _ _ _ E1), (get_default_kept _ _ _ _ E2).
  apply (get_default_kept _ _ _ _ E3).
Qed.

Lemma fill_depart_other k e :
  k <> "departLane"%string -> k <> "departPos"%string ->
  k <> "departSpeed"%string ->
  get k (fill_depart e) = get k e.
Proof.
  intros H1 H2 H3. unfold fill_depart.
  rewrite !get_default_other by congruence. reflexivity.
Qed.

Lemma bound_type e : get "type" (bound e) = Some vtype_id.
Proof.
  unfold bound. apply fill_depart_keeps_value, get_set_same.
Qed.

Lemma bound_fixed e :
  get "type" e = Some vtype_id -> departs_present e -> bound e = e.
Proof.
  intros H1 H2. unfold bound. rewrite (set_same_value _ _ _ H1).
  apply fill_depart_fixed, H2.
Qed.

(** ** What the two passes do to one child *)

Definition cond (t : string) (body : element -> element) (c : element)
  : element :=
  if has_tag t c then body c else c.

Definition settle_target (vt : element) : element :=
  if is_target vt then stabilise vt else vt.

Definition patched (c : element) : element :=
  if has_tag "vType" c then stabilise c
  else if has_tag "vehicle" c then bound c
  else if has_tag "flow" c then bound c
  else c.

Definition new_vtype : element :=
  Element "vType"
    [ ("id"%string, vtype_id); ("sigma"%string, "0"%string);
      ("speedDev"%string, "0"%string) ] [].

Lemma cond_true t body c : tag_of c = t -> cond t body c = body c.
Proof.
  intros H. unfold cond. rewrite (proj2 (has_tag_true t c) H). reflexivity.
Qed.

Lemma cond_false t body c : tag_of c <> t -> cond t body c = c.
Proof.
  intros H. unfold cond. destruct (has_tag t c) eqn:E; [|reflexivity].
  apply has_tag_true in E. contradiction.
Qed.

Lemma tag_settle_target e : tag_of (settle_target e) = tag_of e.
Proof.
  unfold settle_target. destruct (is_target e); [apply tag_stabilise | reflexivity].
Qed.

Lemma tag_cond t body c :
  (forall e, tag_of (body e) = tag_of e) -> tag_of (cond t body c) = tag_of c.
Proof. intros H. unfold cond. destruct (has_tag t c); [apply H | reflexivity]. Qed.

Lemma stabilise_twice c : stabilise (stabilise c) = stabilise c.
Proof.
  destruct (stabilise_sets c) as [H1 H2]. apply stabilise_fixed; assumption.
Qed.

Lemma fill_depart_bound c : fill_depart (bound c) = bound c.
Proof. apply fill_depart_fixed. unfold bound. apply fill_depart_present. Qed.

Definition chain (c : element) : element :=
  cond "flow" fill_depart
    (cond "vehicle" fill_depart
       (cond "vType" stabilise
          (cond "flow" bound (cond "vehicle" bound c)))).

Lemma chain_patched c : chain c = patched c.
Proof.
  unfold chain, patched.
  destruct (has_tag "vType" c) eqn:Et.
  { apply has_tag_true in Et.
    rewrite (cond_false "vehicle" bound c) by (rewrite Et; discriminate).
    rewrite (cond_false "flow" bound c) by (rewrite Et; discriminate).
    rewrite (cond_true "vType" stabilise c Et).
    rewrite (cond_false "vehicle" fill_depart (stabilise c))
      by (rewrite tag_stabilise, Et; discriminate).
    apply cond_false. rewrite tag_stabilise, Et. discriminate. }
  assert (tag_of c <> "vType"%string) as Hnt.
  { intros H. apply has_tag_true in H. congruence. }
  destruct (has_tag "vehicle" c) eqn:Ev.
  { apply has_tag_true in Ev.
    rewrite (cond_true "vehicle" bound c Ev).
    rewrite (cond_false "flow" bound (bound c))
      by (rewrite tag_bound, Ev; discriminate).
    rewrite (cond_false "vType" stabilise (bound c))
      by (rewrite tag_bound, Ev; discriminate).
    rewrite (cond_true "vehicle" fill_depart (bound c))
      by (rewrite tag_bound; exact Ev).
    rewrite fill_depart_bound.
    apply cond_false. rewrite tag_bound, Ev. discriminate. }
  assert (tag_of c <> "vehicle"%string) as Hnv.
  { intros H. apply has_tag_true in H. congruence. }
  rewrite (cond_false "vehicle" bound c Hnv).
  destruct (has_tag "flow" c) eqn:Ef.
  { apply has_tag_true in Ef.
    rewrite (cond_true "flow" bound c Ef).
    rewrite (cond_false "vType" stabilise (bound c))
      by (rewrite tag_bound, Ef; discriminate).
    rewrite (cond_false "vehicle" fill_depart (bound c))
      by (rewrite tag_bound, Ef; discriminate).
    rewrite (cond_true "flow" fill_depart (bound c))
      by (rewrite tag_bound; exact Ef).
    apply fill_depart_bound. }
  assert (tag_of c <> "flow"%string) as Hnf.
  { intros H. apply has_tag_true in H. congruence. }
  rewrite (cond_false "flow" bound c Hnf).
  rewrite (cond_false "vType" stabilise c Hnt).
  rewrite (cond_false "vehicle" fill_depart c Hnv).
  apply (cond_false "flow" fill_depart c Hnf).
Qed.

Lemma patched_settle_target c :
  patched (cond "vType" settle_target c) = patched c.
Proof.
  unfold cond. destruct (has_tag "vType" c) eqn:Et; [|reflexivity].
  unfold settle_target. destruct (is_target c); [|reflexivity].
  unfold patched, has_tag. rewrite !tag_stabilise.
  fold (has_tag "vType" c). rewrite Et. apply stabilise_twice.
Qed.

Lemma has_target_iff cs :
  existsb is_target (filter (has_tag "vType") cs) = true <->
  exists c, In c cs /\ has_tag "vType" c = true /\ is_target c = true.
Proof.
  rewrite existsb_exists. split.
  - intros [c [Hc Ht]]. apply filter_In in Hc. exists c. tauto.
  - intros [c [Hc [Hv Ht]]]. exists c. split; [|exact Ht].
    apply filter_In. auto.
Qed.

Lemma is_target_iff c : is_target c = true <-> get "id" c = Some vtype_id.
Proof.
  unfold is_target. destruct (get "id" c) as [i|].
  - rewrite String.eqb_eq. split; congruence.
  - split; discriminate.
Qed.

(** The children after both passes: every child patched, behind a new
    stable vType when the file had none. *)
Lemma patch_children root :
  children_of (second_pass (first_pass root)) =
    if existsb is_target (filter (has_tag "vType") (children_of root))
    then map patched (children_of root)
    else new_vtype :: map patched (children_of root).
Proof.
  unfold second_pass, first_pass. cbn [children_of].
  unfold for_each. fold new_vtype.
  destruct (existsb is_target (filter (has_tag "vType") (children_of root)));
    cbn [negb].
  - rewrite !map_map. apply map_ext. intros c.
    change (chain (cond "vType" settle_target c) = patched c).
    rewrite chain_patched. apply patched_settle_target.
  - rewrite !map_map. cbn [map]. f_equal.
    apply map_ext. intros c. apply (chain_patched c).
Qed.

Lemma patch_root root :
  second_pass (first_pass root) =
    Element (tag_of root) (attrib_of root)
      (children_of (second_pass (first_pass root))).
Proof. reflexivity. Qed.

(** ** Stable route files *)

(** What the patch aims at: the stable vType is declared, every vType has
    its randomness switched off, and every vehicle and flow uses the stable
    vType and states how it departs. *)
Definition stable (root : element) : Prop :=
  (exists c, In c (children_of root) /\ has_tag "vType" c = true /\
             get "id" c = Some vtype_id) /\
  (forall c, In c (children_of root) -> has_tag "vType" c = true ->
             get "sigma" c = Some "0"%string /\
             get "speedDev" c = Some "0"%string) /\
  (forall c, In c (children_of root) ->
             has_tag "vehicle" c = true \/ has_tag "flow" c = true ->
             get "type" c = Some vtype_id /\ departs_present c).

(** How a child of the patched file relates to the child it comes from. *)
Definition kept (c c' : element) : Prop :=
  tag_of c' = tag_of c /\
  children_of c' = children_of c /\
  (forall k,
      k <> "sigma"%string -> k <> "speedDev"%string -> k <> "type"%string ->
      k <> "departLane"%string -> k <> "departPos"%string ->
      k <> "departSpeed"%string ->
      get k c' = get k c) /\
  (forall k x,
      k = "departLane"%string \/ k = "departPos"%string \/
      k = "departSpeed"%string ->
      get k c = Some x -> get k c' = Some x) /\
  (tag_of c <> "vType"%string -> tag_of c <> "vehicle"%string ->
   tag_of c <> "flow"%string -> c' = c).

Lemma tag_patched c : tag_of (patched c) = tag_of c.
Proof.
  unfold patched.
  destruct (has_tag "vType" c); [apply tag_stabilise|].
  destruct (has_tag "vehicle" c); [apply tag_bound|].
  destruct (has_tag "flow" c); [apply tag_bound | reflexivity].
Qed.

Lemma patched_vtype c :
  has_tag "vType" c = true -> patched c = stabilise c.
Proof. intros H. unfold patched. rewrite H. reflexivity. Qed.

Lemma patched_mover c :
  has_tag "vehicle" c = true \/ has_tag "flow" c = true ->
  patched c = bound c.
Proof.
  intros H. unfold patched.
  destruct (has_tag "vType" c) eqn:Et.
  - apply has_tag_true in Et. destruct H as [H|H]; apply has_tag_true in H;
      rewrite Et in H; discriminate.
  - destruct (has_tag "vehicle" c); [reflexivity|].
    destruct H as [H|H]; [discriminate|]. rewrite H. reflexivity.
Qed.

Lemma bound_other k e :
  k <> "type"%string -> k <> "departLane"%string ->
  k <> "departPos"%string -> k <> "departSpeed"%string ->
  get k (bound e) = get k e.
Proof.
  intros H0 H1 H2 H3. unfold bound.
  rewrite fill_depart_other by assumption.
  apply get_set_other. congruence.
Qed.

Lemma patched_kept c : kept c (patched c).
Proof.
  unfold kept. split; [apply tag_patched|]. split; [|split; [|split]].
  - unfold patched.
    destruct (has_tag "vType" c); [apply children_stabilise|].
    destruct (has_tag "vehicle" c); [apply children_bound|].
    destruct (has_tag "flow" c); [apply children_bound | reflexivity].
  - intros k H1 H2 H3 H4 H5 H6. unfold patched.
    destruct (has_tag "vType" c); [apply stabilise_other; assumption|].
    destruct (has_tag "vehicle" c); [apply bound_other; assumption|].
    destruct (has_tag "flow" c); [apply bound_other; assumption | reflexivity].
  - intros k x Hk Hx. unfold patched.
    assert (get k (bound c) = Some x) as Hb.
    { unfold bound. apply fill_depart_keeps_value.
      rewrite get_set_other; [exact Hx|].
      destruct Hk as [->|[->| ->]]; discriminate. }
    destruct (has_tag "vType" c).
    + rewrite stabilise_other; [exact Hx| |];
        destruct Hk as [->|[->| ->]]; discriminate.
    + destruct (has_tag "vehicle" c); [exact Hb|].
      destruct (has_tag "flow" c); [exact Hb | exact Hx].
  - intros H1 H2 H3. unfold patched.
    destruct (has_tag "vType" c) eqn:E1;
      [apply has_tag_true in E1; contradiction|].
    destruct (has_tag "vehicle" c) eqn:E2;
      [apply has_tag_true in E2; contradiction|].
    destruct (has_tag "flow" c) eqn:E3;
      [apply has_tag_true in E3; contradiction|].
    reflexivity.
Qed.

Lemma patched_fixed c :
  (has_tag "vType" c = true ->
   get "sigma" c = Some "0"%string /\ get "speedDev" c = Some "0"%string) ->
  (has_tag "vehicle" c = true \/ has_tag "flow" c = true ->
   get "type" c = Some vtype_id /\ departs_present c) ->
  patched c = c.
Proof.
  intros Hv Hm. unfold patched.
  destruct (has_tag "vType" c).
  - destruct (Hv eq_refl). apply stabilise_fixed; assumption.
  - destruct (has_tag "vehicle" c).
    + destruct (Hm (or_introl eq_refl)). apply bound_fixed; assumption.
    + destruct (has_tag "flow" c); [|reflexivity].
      destruct (Hm (or_intror eq_refl)). apply bound_fixed; assumption.
Qed.

Lemma patched_is_stable c :
  (has_tag "vType" (patched c) = true ->
   get "sigma" (patched c) = Some "0"%string /\
   get "speedDev" (patched c) = Some "0"%string) /\
  (has_tag "vehicle" (patched c) = true \/ has_tag "flow" (patched c) = true ->
   get "type" (patched c) = Some vtype_id /\ departs_present (patched c)).
Proof.
  unfold has_tag. rewrite tag_patched. fold (has_tag "vType" c).
  fold (has_tag "vehicle" c). fold (has_tag "flow" c). split.
  - intros H. rewrite (patched_vtype c H). apply stabilise_sets.
  - intros H. rewrite (patched_mover c H). split; [apply bound_type|].
    unfold bound. apply fill_depart_present.
Qed.

Lemma patch_result_stable root : stable (second_pass (first_pass root)).
Proof.
  unfold stable. rewrite patch_children.
  set (cs := children_of root).
  assert (forall c, In c (map patched cs) \/ c = new_vtype ->
            (has_tag "vType" c = true ->
             get "sigma" c = Some "0"%string /\
             get "speedDev" c = Some "0"%string) /\
            (has_tag "vehicle" c = true \/ has_tag "flow" c = true ->
             get "type" c = Some vtype_id /\ departs_present c)) as Hall.
  { intros c [Hc| ->].
    - apply in_map_iff in Hc. destruct Hc as [c0 [<- _]].
      apply patched_is_stable.
    - split; [intros _; split; reflexivity|].
      intros [H|H]; discriminate. }
  destruct (existsb is_target (filter (has_tag "vType") cs)) eqn:E.
  - split; [|split].
    + apply has_target_iff in E. destruct E as [c [Hc [Hv Ht]]].
      exists (patched c). split; [apply in_map, Hc|]. split.
      * unfold has_tag. rewrite tag_patched. exact Hv.
      * rewrite (patched_vtype c Hv), stabilise_other by discriminate.
        apply is_target_iff, Ht.
    + intros c Hc. apply (Hall c). left. exact Hc.
    + intros c Hc. apply (Hall c). left. exact Hc.
  - split; [|split].
    + exists new_vtype. split; [left; reflexivity|]. split; reflexivity.
    + intros c [<-|Hc]; apply Hall; auto.
    + intros c [<-|Hc]; apply Hall; auto.
Qed.

Lemma stable_fixed root : stable root -> second_pass (first_pass root) = root.
Proof.
  intros [[c [Hc [Hv Hid]]] [Hvt Hmv]].
  rewrite patch_root, patch_children.
  assert (existsb is_target (filter (has_tag "vType") (children_of root)) = true)
    as ->.
  { apply has_target_iff. exists c. repeat split; auto.
    apply is_target_iff, Hid. }
  rewrite (map_ext_in patched (fun x => x)).
  - rewrite map_id. destruct root. reflexivity.
  - intros x Hx. apply patched_fixed; [apply Hvt | apply Hmv]; exact Hx.
Qed.

(** X17. Patching a routes file that exists rewrites it into a stable one:
    the root keeps its tag and attributes and, among the root's children
    (the elements [root.findall] sees), a vType [car_stable] is there,
    every vType has sigma and speedDev "0", and every vehicle and flow has
    type [car_stable] and the three depart attributes.  Patching a file
    that does not exist raises [FileNotFoundError] and writes nothing. *)
Theorem patch_makes_routes_stable :
  patch_routes_for_stability None = FileNotFoundError /\
  forall root, exists root',
    patch_routes_for_stability (Some root) = Written root' /\
    tag_of root' = tag_of root /\ attrib_of root' = attrib_of root /\
    (exists c, In c (children_of root') /\ has_tag "vType" c = true /\
               get "id" c = Some vtype_id) /\
    (forall c, In c (children_of root') -> has_tag "vType" c = true ->
               get "sigma" c = Some "0"%string /\
               get "speedDev" c = Some "0"%string) /\
    (forall c, In c (children_of root') ->
               has_tag "vehicle" c = true \/ has_tag "flow" c = true ->
               get "type" c = Some vtype_id /\
               get "departLane" c <> None /\ get "departPos" c <> None /\
               get "departSpeed" c <> None).
Proof.
  split; [reflexivity|]. intros root.
  exists (second_pass (first_pass root)). split; [reflexivity|].
  split; [reflexivity|]. split; [reflexivity|].
  apply patch_result_stable.
Qed.

(** X18. The patch changes nothing else: the children of the patched file
    are the children of the file, in order, behind one new vType exactly
    when the file declared no [car_stable]; each child keeps its tag, its
    own children, every attribute other than sigma, speedDev, type and the
    depart attributes, and every depart attribute it already had; children
    that are neither vType, vehicle nor flow are untouched. *)
Theorem patch_keeps_the_rest (root root' : element) :
  patch_routes_for_stability (Some root) = Written root' ->
  exists front rest,
    children_of root' = front ++ rest /\
    Forall2 kept (children_of root) rest /\
    ((exists c, In c (children_of root) /\ has_tag "vType" c = true /\
                get "id" c = Some vtype_id) -> front = []) /\
    (~ (exists c, In c (children_of root) /\ has_tag "vType" c = true /\
                  get "id" c = Some vtype_id) -> front = [new_vtype]).
Proof.
  intros [= <-]. rewrite patch_children.
  assert (Forall2 kept (children_of root) (map patched (children_of root)))
    as HF.
  { induction (children_of root) as [|c cs IH]; simpl; constructor;
      [apply patched_kept | exact IH]. }
  destruct (existsb is_target (filter (has_tag "vType") (children_of root)))
    eqn:E.
  - exists [], (map patched (children_of root)).
    split; [reflexivity|]. split; [exact HF|]. split; [reflexivity|].
    intros Hn. exfalso. apply Hn. apply has_target_iff in E.
    destruct E as [c [Hc [Hv Ht]]]. exists c. repeat split; auto.
    apply is_target_iff, Ht.
  - exists [new_vtype], (map patched (children_of root)).
    split; [reflexivity|]. split; [exact HF|]. split; [|reflexivity].
    intros [c [Hc [Hv Hid]]].
    assert (existsb is_target (filter (has_tag "vType") (children_of root))
            = true) as E'.
    { apply has_target_iff. exists c. repeat split; auto.
      apply is_target_iff, Hid. }
    congruence.
Qed.

(** X19. Patching is idempotent, and the files it leaves unchanged are
    exactly the stable ones: those whose root has, among its children, the
    vType [car_stable], sigma and speedDev "0" on every vType, and type
    [car_stable] with the three depart attributes on every vehicle and
    flow. *)
Theorem patch_idempotent (root : element) :
  (forall root', patch_routes_for_stability (Some root) = Written root' ->
                 patch_routes_for_stability (Some root') = Written root') /\
  (patch_routes_for_stability (Some root) = Written root <-> stable root).
Proof.
  split.
  - intros root' [= <-]. simpl. f_equal.
    apply stable_fixed, patch_result_stable.
  - simpl. split.
    + intros [= H]. rewrite <- H. apply patch_result_stable.
    + intros H. f_equal. apply stable_fixed, H.
Qed.

Lemma patch_keeps_the_rest_witness :
  exists front rest,
    children_of routes_example_patched = front ++ rest /\
    Forall2 kept (children_of routes_example) rest /\
    ((exists c, In c (children_of routes_example) /\
                has_tag "vType" c = true /\ get "id" c = Some vtype_id) ->
     front = []) /\
    (~ (exists c, In c (children_of routes_example) /\
                  has_tag "vType" c = true /\ get "id" c = Some vtype_id) ->
     front = [new_vtype]).
Proof.
  apply (patch_keeps_the_rest routes_example routes_example_patched).
  reflexivity.
Defined.

Lemma patch_idempotent_witness :
  patch_routes_for_stability (Some routes_example_patched)
    = Written routes_example_patched.
Proof.
  apply (proj1 (patch_idempotent routes_example) routes_example_patched).
  reflexivity.
Defined.

(** * What the tie order of the sort cannot change *)


Lemma init_succeeds_iff {S : DataFrameSort} path t :
  (exists td, __init__ path t = Ok td) <->
  required_columns t = true /\
  exists r tm, In r (records t) /\ has_lon_lat r = true /\
               timestep_time r = Some tm.
Proof.
  split.
  - intros [td Hi]. destruct (init_inv path t td Hi) as [Hl [Hlo _]].
    destruct (load_inv t _ Hl) as [Hc _]. split; [exact Hc|].
    destruct (series_fold_some _ _ _ Hlo) as [tm Hin].
    apply in_map_iff in Hin. destruct Hin as [r [Et Hr]].
    apply (load_rows t _ Hl) in Hr. exists r, tm. tauto.
  - intros [Hc [r [tm [Hr [Hll Et]]]]].
    unfold __init__. rewrite (load_ok t Hc). cbn [bind].
    set (d := df_sort (filter has_lon_lat (records t))).
    assert (In (Some tm) (map timestep_time d)) as Hin.
    { rewrite <- Et. apply in_map. unfold d.
      apply (Permutation_in _ (df_sort_perm _)), filter_In. auto. }
    destruct (series_min (map timestep_time d)) as [lo|] eqn:Elo.
    + destruct (series_max (map timestep_time d)) as [hi|] eqn:Ehi.
      * simpl. eauto.
      * exfalso. apply (proj1 (series_fold_none _ _) Ehi tm Hin).
    + exfalso. apply (proj1 (series_fold_none _ _) Elo tm Hin).
Qed.



(** X21. The three outcomes of constructing a store.  A missing required
    column raises [ValueError].  With the columns there, the construction
    succeeds exactly when some row has a longitude, a latitude and a time;
    otherwise it raises [TypeError], the minimum of the time column being
    null. *)
Theorem init_outcomes (S : DataFrameSort) (path : string) (t : CsvTable) :
  (required_columns t = false ->
   exists msg, __init__ path t = Raise (ValueError msg)) /\
  (required_columns t = true ->
   (forall r, In r (records t) -> has_lon_lat r = true ->
              timestep_time r = None) ->
   exists msg, __init__ path t = Raise (TypeError msg)) /\
  (required_columns t = true ->
   (exists r tm, In r (records t) /\ has_lon_lat r = true /\
                 timestep_time r = Some tm) ->
   exists td, __init__ path t = Ok td /\ _load t = Ok (df td)) /\
  ((exists td, __init__ path t = Ok td) ->
   required_columns t = true /\
   exists r tm, In r (records t) /\ has_lon_lat r = true /\
                timestep_time r = Some tm).
Proof.
  split; [|split; [|split]].
  - intros Hc. destruct (load_raise t Hc) as [msg Hm]. exists msg.
    apply init_raise_schema, Hm.
  - intros Hc Hnone. unfold __init__. rewrite (load_ok t Hc). cbn [bind].
    assert (series_min (map timestep_time
                          (df_sort (filter has_lon_lat (records t)))) = None)
      as ->.
    { apply series_fold_none. intros tm Hin. apply in_map_iff in Hin.
      destruct Hin as [r [Et Hr]].
      apply (Permutation_in _ (Permutation_sym (df_sort_perm _))) in Hr.
      apply filter_In in Hr. destruct Hr as [Hr Hll].
      rewrite (Hnone r Hr Hll) in Et. discriminate. }
    simpl. eexists. reflexivity.
  - intros Hc Hrow.
    destruct (proj2 (init_succeeds_iff path t) (conj Hc Hrow)) as [td Hi].
    exists td. split; [exact Hi|]. apply (init_inv path t td Hi).
  - apply init_succeeds_iff.
Qed.

Lemma init_outcomes_witness :
  exists td, @__init__ stable_sort "fcd_geo.csv" unsorted_table = Ok td /\
             @_load stable_sort unsorted_table = Ok (df td).
Proof.
  apply (proj1 (proj2 (proj2 (init_outcomes stable_sort "fcd_geo.csv"
                                unsorted_table)))).
  - reflexivity.
  - exists (fcd 1 "v2" 20 60), 1. simpl. auto.
Defined.
